(** * Grouping and collective-title generation of [app.js]

    A shallow embedding of the document-data core of [src/app.js]
    ([isResponsible], [jobTitleGrammar], [findMasculineRoot],
    [processGroupData] and the grouping part of the [generateWordBtn]
    click handler), followed by the properties of the specification that
    were checked against it.

    JavaScript strings are sequences of UTF-16 code units and are modelled as
    [list N].  Objects used as dictionaries are insertion-ordered association
    lists (the order is what [for ... in] enumerates), and a property read
    [o[k]] also sees what the object inherits from [Object.prototype].
    A [TypeError] raised by the code is an explicit result. *)

From Stdlib Require Import Ascii String NArith ZArith Bool Arith Lia List.
From Stdlib Require Import Permutation.
Import ListNotations.

(* ================================================================== *)
(** ** Strings as UTF-16 code units *)

Definition jsstring := list N.

Module Utf8.
(** Literals are written as Rocq strings (UTF-8 bytes) and decoded to
    code units of the Basic Multilingual Plane (one to three bytes per
    character, which covers every literal of [app.js]). *)
Fixpoint bytes (s : string) : list N :=
  match s with
  | EmptyString => []
  | String a s' => N_of_ascii a :: bytes s'
  end.

Fixpoint decode (l : list N) : jsstring :=
  match l with
  | [] => []
  | b :: t =>
      if (b <? 128)%N then b :: decode t
      else if (b <? 224)%N then
        match t with
        | b2 :: t' => ((b mod 32) * 64 + b2 mod 64)%N :: decode t'
        | [] => []
        end
      else
        match t with
        | b2 :: b3 :: t' =>
            ((b mod 16) * 4096 + (b2 mod 64) * 64 + b3 mod 64)%N :: decode t'
        | _ => []
        end
  end.
End Utf8.

Definition utf16 (s : string) : jsstring := Utf8.decode (Utf8.bytes s).

Fixpoint str_eqb (a b : jsstring) : bool :=
  match a, b with
  | [], [] => true
  | x :: a', y :: b' => (x =? y)%N && str_eqb a' b'
  | _, _ => false
  end.

(** [a === b] on values that are either [undefined] or a string. *)
Definition opt_eqb (a b : option jsstring) : bool :=
  match a, b with
  | None, None => true
  | Some x, Some y => str_eqb x y
  | _, _ => false
  end.

(** [x || d] for such a value: [undefined] and [''] are falsy. *)
Definition orElse (x : option jsstring) (d : jsstring) : jsstring :=
  match x with
  | Some (c :: s) => c :: s
  | _ => d
  end.

(** [`${x}`]: an absent value prints as the word [undefined]. *)
Definition undefined_text : jsstring := Eval vm_compute in utf16 "undefined"%string.

Definition toText (x : option jsstring) : jsstring :=
  match x with
  | Some s => s
  | None => undefined_text
  end.

(** WhiteSpace and LineTerminator code points, as [String.prototype.trim]
    strips them. *)
Definition isWhiteSpace (c : N) : bool :=
  ((9 <=? c) && (c <=? 13) || (c =? 32) || (c =? 160) || (c =? 5760)
   || (8192 <=? c) && (c <=? 8202) || (c =? 8232) || (c =? 8233)
   || (c =? 8239) || (c =? 8287) || (c =? 12288) || (c =? 65279))%N.

Fixpoint trimStart (s : jsstring) : jsstring :=
  match s with
  | c :: s' => if isWhiteSpace c then trimStart s' else s
  | [] => []
  end.

Definition trimEnd (s : jsstring) : jsstring := rev (trimStart (rev s)).

Definition trim (s : jsstring) : jsstring := trimEnd (trimStart s).

Fixpoint startsWith (p s : jsstring) : bool :=
  match p, s with
  | [], _ => true
  | x :: p', y :: s' => (x =? y)%N && startsWith p' s'
  | _ :: _, [] => false
  end.

Definition endsWith (p s : jsstring) : bool := startsWith (rev p) (rev s).

(** [s.includes(p)] *)
Fixpoint includes (p s : jsstring) : bool :=
  startsWith p s ||
  match s with
  | [] => false
  | _ :: s' => includes p s'
  end.

(** [s.split(' ')[0]]: the code units before the first U+0020. *)
Fixpoint firstToken (s : jsstring) : jsstring :=
  match s with
  | [] => []
  | c :: s' => if (c =? 32)%N then [] else c :: firstToken s'
  end.

(** [l.join(sep)] on a list of strings. *)
Fixpoint join (sep : jsstring) (l : list jsstring) : jsstring :=
  match l with
  | [] => []
  | [x] => x
  | x :: l' => x ++ sep ++ join sep l'
  end.

(** GetSubstitution of ECMA-262 for a string pattern (no capture groups):
    in the replacement text, [$$] is a dollar sign, [$&] the matched text,
    [$`] the text before the match and [$'] the text after it; any other
    dollar sign stands for itself. *)
Fixpoint getSubstitution (matched before after repl : jsstring) : jsstring :=
  match repl with
  | [] => []
  | c :: r =>
      if (c =? 36)%N then
        match r with
        | d :: r' =>
            if (d =? 36)%N then 36%N :: getSubstitution matched before after r'
            else if (d =? 38)%N then matched ++ getSubstitution matched before after r'
            else if (d =? 96)%N then before ++ getSubstitution matched before after r'
            else if (d =? 39)%N then after ++ getSubstitution matched before after r'
            else c :: getSubstitution matched before after r
        | [] => [c]
        end
      else c :: getSubstitution matched before after r
  end.

(** [s.replace(pat, repl)] with a string pattern: the first occurrence only. *)
Fixpoint replace_from (before_rev s pat repl : jsstring) : option jsstring :=
  if startsWith pat s then
    let before := rev before_rev in
    let after := skipn (length pat) s in
    Some (before ++ getSubstitution pat before after repl ++ after)
  else
    match s with
    | [] => None
    | c :: s' => replace_from (c :: before_rev) s' pat repl
    end.

Definition replace (s pat repl : jsstring) : jsstring :=
  match replace_from [] s pat repl with
  | Some r => r
  | None => s
  end.

(** [s.slice(0, -1)] *)
Definition dropLast (s : jsstring) : jsstring := removelast s.

(* ================================================================== *)
(** ** Results and object property reads *)

(** What a piece of code evaluates to: a value, or a thrown [TypeError]
    (reading a property of [undefined]). *)
Inductive result (A : Type) : Type :=
| Ok (a : A)
| TypeError.

Arguments Ok {A} a.
Arguments TypeError {A}.

Definition bind {A B : Type} (r : result A) (k : A -> result B) : result B :=
  match r with
  | Ok a => k a
  | TypeError => TypeError
  end.

Notation "x <- r ;; k" := (bind r (fun x => k))
  (at level 61, r at next level, right associativity).

(** The property names every plain object inherits from [Object.prototype].
    All of them hold objects or functions, so reading one gives a truthy value
    that has none of the properties the code goes on to read. *)
Definition objectPrototype : list jsstring := Eval vm_compute in
  map utf16
    [ "constructor"; "__defineGetter__"; "__defineSetter__"; "hasOwnProperty";
      "__lookupGetter__"; "__lookupSetter__"; "isPrototypeOf";
      "propertyIsEnumerable"; "toString"; "valueOf"; "__proto__";
      "toLocaleString" ]%string.

Definition inherited (k : jsstring) : bool := existsb (str_eqb k) objectPrototype.

Fixpoint assoc {A : Type} (k : jsstring) (o : list (jsstring * A)) : option A :=
  match o with
  | [] => None
  | (k', a) :: o' => if str_eqb k' k then Some a else assoc k o'
  end.

(** The outcome of reading [o[k]] on an object created by a literal. *)
Inductive property (A : Type) : Type :=
| Own (a : A)
| Inherited
| Undefined.

Arguments Own {A} a.
Arguments Inherited {A}.
Arguments Undefined {A}.

Definition getProp {A : Type} (o : list (jsstring * A)) (k : jsstring) : property A :=
  match assoc k o with
  | Some a => Own a
  | None => if inherited k then Inherited else Undefined
  end.

Definition truthy {A : Type} (p : property A) : bool :=
  match p with
  | Undefined => false
  | _ => true
  end.

(* ================================================================== *)
(** ** The grammar dictionary [jobTitleGrammar] *)

Module Grammar.
Record forms : Type := Forms { s : jsstring; d : jsstring; p : jsstring }.
Record entry : Type := Entry { m : forms; f : forms }.
End Grammar.

Definition jobTitleGrammar : list (jsstring * Grammar.entry) := Eval vm_compute in
  let F := fun s d p => Grammar.Forms (utf16 s) (utf16 d) (utf16 p) in
  [ (utf16 "قاضي",
      Grammar.Entry (F "القاضي ب" "القاضيين ب" "القضاة ب")
                    (F "القاضية ب" "القاضيتين ب" "القاضيات ب"));
    (utf16 "مستشار",
      Grammar.Entry (F "المستشار ب" "المستشارين ب" "المستشارون ب")
                    (F "المستشارة ب" "المستشارتين ب" "المستشارات ب"));
    (utf16 "محام عام",
      Grammar.Entry (F "محام عام" "محاميان عامان" "محامون عامون")
                    (F "محامية عامة" "محاميتان عامتان" "محاميات عامات"));
    (utf16 "نائب الوكيل العام للملك",
      Grammar.Entry (F " نائب الوكيل العام للملك لدى" " نائبا الوكيل العام للملك لدى" "نواب الوكيل العام للملك لدى ")
                    (F "نائبة الوكيل العام للملك لدى " "لنائبتا الوكيل العام للملك لدى " "نائبات الوكيل العام للملك لدى "));
    (utf16 "نائب وكيل الملك",
      Grammar.Entry (F "نائب وكيل الملك لدى" "نائبا وكيل الملك لدى" "نواب وكيل الملك لدى ")
                    (F "نائبة وكيل الملك لدى " "نائبتا وكيل الملك لدى " "نائبات وكيل الملك لدى ")) ]%string.

(** The feminine marker, the letter ta marbuta "ة". *)
Definition feminineMarker : jsstring := Eval vm_compute in utf16 "ة"%string.

(** [grammar.f.s === title || grammar.f.d === title || grammar.f.p === title] *)
Definition isFeminineFormOf (title : jsstring) (kv : jsstring * Grammar.entry) : bool :=
  let grammar := snd kv in
  str_eqb (Grammar.s (Grammar.f grammar)) title
  || str_eqb (Grammar.d (Grammar.f grammar)) title
  || str_eqb (Grammar.p (Grammar.f grammar)) title.

Definition findMasculineRoot (title : jsstring) : jsstring :=
  match title with
  | [] => []
  | _ :: _ =>
      if truthy (getProp jobTitleGrammar title) then title
      else
        match find (isFeminineFormOf title) jobTitleGrammar with
        | Some (key, _) => key
        | None =>
            let firstWord := firstToken title in
            if endsWith feminineMarker firstWord then
              let masculinizedTitle := replace title firstWord (dropLast firstWord) in
              if truthy (getProp jobTitleGrammar masculinizedTitle)
              then masculinizedTitle
              else title
            else title
        end
  end.

(* ================================================================== *)
(** ** Employee records *)

(** An employee identifier as JSON delivers it: absent, [null], a number or
    a string.  [===] on such values is structural equality. *)
Inductive idValue : Type :=
| IdUndefined
| IdNull
| IdNumber (n : Z)
| IdString (s : jsstring).

Definition id_eqb (a b : idValue) : bool :=
  match a, b with
  | IdUndefined, IdUndefined => true
  | IdNull, IdNull => true
  | IdNumber x, IdNumber y => (x =? y)%Z
  | IdString x, IdString y => str_eqb x y
  | _, _ => false
  end.

(** The text fields hold a string or are absent ([None] is [undefined]). *)
Record Employee : Type := {
  employeeId : idValue;
  fullName : option jsstring;
  gender : option jsstring;
  jobTitle : option jsstring;
  postResponsibility : option jsstring;
  workLocation : option jsstring;
  division : option jsstring;
  city : option jsstring
}.

(** The honorific words that double as the gender values. *)
Definition MALE : jsstring := Eval vm_compute in utf16 "السيد"%string.
Definition FEMALE : jsstring := Eval vm_compute in utf16 "السيدة"%string.

(** The keywords of [isResponsible]. *)
Definition kw_rais : jsstring := Eval vm_compute in utf16 "رئيس"%string.
Definition kw_raisa : jsstring := Eval vm_compute in utf16 "رئيسة"%string.
Definition kw_wakil : jsstring := Eval vm_compute in utf16 "وكيل"%string.
Definition kw_wakila : jsstring := Eval vm_compute in utf16 "وكيلة"%string.

Definition isResponsible (employee : Employee) : bool :=
  match postResponsibility employee with
  | None | Some [] => false
  | Some pr =>
      let title := trim pr in
      includes kw_rais title || includes kw_raisa title
      || includes kw_wakil title || includes kw_wakila title
  end.

(* ================================================================== *)
(** ** The collective-title resolver [processGroupData] *)

Module GroupData.
Record t : Type := {
  city : option jsstring;
  maleCollectiveTitle : jsstring;
  femaleCollectiveTitle : jsstring;
  computedVar : jsstring;
  combinedJobTitle : jsstring;
  invitees_names : jsstring;
  collective_title : jsstring
}.
End GroupData.

(** The literals of [processGroupData]. *)
Definition maleDual : jsstring := Eval vm_compute in utf16 "السيدين"%string.
Definition malePlural : jsstring := Eval vm_compute in utf16 "السادة"%string.
Definition femaleDual : jsstring := Eval vm_compute in utf16 "السيدتين"%string.
Definition femalePlural : jsstring := Eval vm_compute in utf16 "السيدات"%string.
Definition connector : jsstring := Eval vm_compute in utf16 " و "%string.
Definition preposition : jsstring := Eval vm_compute in utf16 "ب"%string.
Definition space : jsstring := Eval vm_compute in utf16 " "%string.
Definition concerned_m_s : jsstring := Eval vm_compute in utf16 "المعني"%string.
Definition concerned_f_s : jsstring := Eval vm_compute in utf16 "المعنية"%string.
Definition concerned_m_d : jsstring := Eval vm_compute in utf16 "المعنيين"%string.
Definition concerned_f_d : jsstring := Eval vm_compute in utf16 "المعنيتين"%string.
Definition concerned_m_p : jsstring := Eval vm_compute in utf16 "المعنيين"%string.
Definition concerned_f_p : jsstring := Eval vm_compute in utf16 "المعنيات"%string.

(** How [Array.prototype.join] prints an element: [undefined] as the empty
    string. *)
Definition elementText (x : option jsstring) : jsstring :=
  match x with
  | Some s => s
  | None => []
  end.

(** [list.map(e => e.fullName).join(' و ')] *)
Definition joinNames (l : list Employee) : jsstring :=
  join connector (map (fun e => elementText (fullName e)) l).

(** [grammarSet.m.s] and the like: on a value inherited from
    [Object.prototype], [grammarSet.m] is [undefined] and the read throws. *)
Definition readForm (grammarSet : property Grammar.entry)
    (form : Grammar.entry -> jsstring) : result jsstring :=
  match grammarSet with
  | Own g => Ok (form g)
  | _ => TypeError
  end.

Definition processGroupData (employees : list Employee) : result GroupData.t :=
  let males := filter (fun e => opt_eqb (gender e) (Some MALE)) employees in
  let females := filter (fun e => opt_eqb (gender e) (Some FEMALE)) employees in
  (* base title for males *)
  let maleCollectiveTitle :=
    if 0 <? length males then
      let title := if length males =? 1 then MALE
                   else if length males =? 2 then maleDual else malePlural in
      let maleNames := joinNames males in
      title ++ space ++ maleNames
    else [] in
  (* base title for females *)
  let femaleCollectiveTitle :=
    if 0 <? length females then
      let title := if length females =? 1 then FEMALE
                   else if length females =? 2 then femaleDual else femalePlural in
      let femaleNames := joinNames females in
      title ++ space ++ femaleNames
    else [] in
  (* the prefix at the beginning of the collective title *)
  let maleCollectiveTitle :=
    if 0 <? length males then preposition ++ maleCollectiveTitle
    else maleCollectiveTitle in
  let femaleCollectiveTitle :=
    if 0 <? length males then femaleCollectiveTitle
    else if 0 <? length females then preposition ++ femaleCollectiveTitle
    else femaleCollectiveTitle in
  (* the connector of a mixed group *)
  let femaleCollectiveTitle :=
    if (0 <? length males) && (0 <? length females)
    then connector ++ femaleCollectiveTitle
    else femaleCollectiveTitle in
  let totalCount := length employees in
  let computedVar :=
    if totalCount =? 1 then
      if length males =? 1 then concerned_m_s else concerned_f_s
    else if totalCount =? 2 then
      if length males =? 2 then concerned_m_d
      else if length females =? 2 then concerned_f_d
      else concerned_m_d
    else
      if 0 <? length males then concerned_m_p else concerned_f_p in
  let city := match employees with
              | e0 :: _ => city e0
              | [] => Some []
              end in
  combinedJobTitle <-
    match employees with
    | [] => Ok []
    | e0 :: _ =>
        let representativeTitle := trim (orElse (jobTitle e0) []) in
        let root := findMasculineRoot representativeTitle in
        let grammarSet := getProp jobTitleGrammar root in
        if truthy grammarSet then
          let groupMaleCount := length males in
          let groupFemaleCount := length females in
          let groupTotalCount := length employees in
          if groupTotalCount =? 1 then
            if groupMaleCount =? 1
            then readForm grammarSet (fun g => Grammar.s (Grammar.m g))
            else readForm grammarSet (fun g => Grammar.s (Grammar.f g))
          else if groupTotalCount =? 2 then
            if groupFemaleCount =? 2
            then readForm grammarSet (fun g => Grammar.d (Grammar.f g))
            else readForm grammarSet (fun g => Grammar.d (Grammar.m g))
          else if 2 <? groupTotalCount then
            if 0 <? groupMaleCount
            then readForm grammarSet (fun g => Grammar.p (Grammar.m g))
            else readForm grammarSet (fun g => Grammar.p (Grammar.f g))
          else Ok root
        else Ok representativeTitle
    end ;;
  let invitees_names := joinNames employees in
  let collective_title :=
    match femaleCollectiveTitle with
    | [] => maleCollectiveTitle
    | _ :: _ =>
        match maleCollectiveTitle with
        | [] => femaleCollectiveTitle
        | _ :: _ => maleCollectiveTitle ++ femaleCollectiveTitle
        end
    end in
  Ok {| GroupData.city := city;
        GroupData.maleCollectiveTitle := maleCollectiveTitle;
        GroupData.femaleCollectiveTitle := femaleCollectiveTitle;
        GroupData.computedVar := computedVar;
        GroupData.combinedJobTitle := combinedJobTitle;
        GroupData.invitees_names := invitees_names;
        GroupData.collective_title := collective_title |}.

(* ================================================================== *)
(** ** Grouping and document data (the [generateWordBtn] click handler) *)

Definition NA : jsstring := Eval vm_compute in utf16 "N/A"%string.
Definition underscore : jsstring := Eval vm_compute in utf16 "_"%string.

(** [`${emp.workLocation || 'N/A'}_${emp.division || 'N/A'}_${emp.city || 'N/A'}`] *)
Definition groupKey (emp : Employee) : jsstring :=
  orElse (workLocation emp) NA ++ underscore
  ++ orElse (division emp) NA ++ underscore
  ++ orElse (city emp) NA.

Module Group.
Record t : Type := {
  workLocation : option jsstring;
  division : option jsstring;
  city : option jsstring;
  employees : list Employee
}.
End Group.

(** [o[k] = a]: an existing property keeps its place, a new one goes last.
    Every key built by [groupKey] contains an underscore, so none is an array
    index and [for ... in] enumerates the keys in this order. *)
Fixpoint setProp {A : Type} (k : jsstring) (a : A) (o : list (jsstring * A))
  : list (jsstring * A) :=
  match o with
  | [] => [(k, a)]
  | (k', a') :: o' =>
      if str_eqb k' k then (k', a) :: o' else (k', a') :: setProp k a o'
  end.

(** [group.employees.push(emp)] *)
Definition push (emp : Employee) (g : Group.t) : Group.t :=
  {| Group.workLocation := Group.workLocation g;
     Group.division := Group.division g;
     Group.city := Group.city g;
     Group.employees := Group.employees g ++ [emp] |}.

(** The callback of [invitedList.reduce].  When [acc[key]] is a value
    inherited from [Object.prototype], no entry is created and
    [acc[key].employees] is [undefined], so [push] throws. *)
Definition groupStep (acc : list (jsstring * Group.t)) (emp : Employee)
  : result (list (jsstring * Group.t)) :=
  let key := groupKey emp in
  let acc :=
    if truthy (getProp acc key) then acc
    else setProp key {| Group.workLocation := workLocation emp;
                        Group.division := division emp;
                        Group.city := city emp;
                        Group.employees := [] |} acc in
  match getProp acc key with
  | Own g => Ok (setProp key (push emp g) acc)
  | _ => TypeError
  end.

Fixpoint reduce {A B : Type} (f : B -> A -> result B) (l : list A) (acc : B)
  : result B :=
  match l with
  | [] => Ok acc
  | x :: l' => acc' <- f acc x ;; reduce f l' acc'
  end.

Definition groupedEmployees (invitedList : list Employee)
  : result (list (jsstring * Group.t)) :=
  reduce groupStep invitedList [].

(** [l.find(f)] for a callback that may throw. *)
Fixpoint findR {A : Type} (f : A -> result bool) (l : list A) : result (option A) :=
  match l with
  | [] => Ok None
  | x :: l' => b <- f x ;; if b then Ok (Some x) else findR f l'
  end.

Definition responsiblePerson (employeeData : list Employee) (group : Group.t)
  : result (option Employee) :=
  findR (fun e =>
    if negb (opt_eqb (workLocation e) (Group.workLocation group))
       || negb (opt_eqb (division e) (Group.division group))
    then Ok false
    else
      match Group.employees group with
      | [] => TypeError
      | e0 :: _ =>
          if negb (opt_eqb (city e) (city e0)) then Ok false
          else Ok (isResponsible e)
      end) employeeData.

Definition responsibilityLine (responsiblePerson : option Employee) : jsstring :=
  match responsiblePerson with
  | Some rp =>
      let genderPrefix := if opt_eqb (gender rp) (Some FEMALE) then FEMALE else MALE in
      genderPrefix ++ space ++ toText (jobTitle rp)
  | None => []
  end.

Definition responsiblePersonId (responsiblePerson : option Employee) : idValue :=
  match responsiblePerson with
  | Some rp => employeeId rp
  | None => IdNull
  end.

Definition filteredEmployees (employees : list Employee)
    (responsiblePerson : option Employee) : list Employee :=
  filter (fun e => negb (id_eqb (employeeId e) (responsiblePersonId responsiblePerson)))
         employees.

(** The object handed to [doc.setData]. *)
Module DocData.
Record t : Type := {
  workLocation : option jsstring;
  division : option jsstring;
  employees : list Employee;
  responsibilityLine : jsstring;
  processedData : GroupData.t
}.
End DocData.

(** The body of the loop over the groups, up to [doc.setData]. *)
Definition setData (employeeData : list Employee) (group : Group.t)
  : result DocData.t :=
  rp <- responsiblePerson employeeData group ;;
  let filtered := filteredEmployees (Group.employees group) rp in
  processedData <- processGroupData filtered ;;
  Ok {| DocData.workLocation := Group.workLocation group;
        DocData.division := Group.division group;
        DocData.employees := filtered;
        DocData.responsibilityLine := responsibilityLine rp;
        DocData.processedData := processedData |}.

Fixpoint forIn {A B : Type} (f : A -> result B) (o : list (jsstring * A))
  : result (list B) :=
  match o with
  | [] => Ok []
  | (_, a) :: o' => b <- f a ;; bs <- forIn f o' ;; Ok (b :: bs)
  end.

(** One generation pass: the data of every document, in group order. *)
Definition generate (employeeData invitedList : list Employee)
  : result (list DocData.t) :=
  groups <- groupedEmployees invitedList ;;
  forIn (setData employeeData) groups.

(* ================================================================== *)
(** ** Built-ins of the runtime that are taken as given *)

(** Three library operations are not written out.  [numberToString] is
    [ToString] on a Number (decimal digits, exponent notation from 1e21 on).
    [toNumber] is the Number that [parseInt] returns for the integer it has
    read (the nearest double; the standard leaves digits past the twentieth
    to the implementation).  [toLowerCase] is the Unicode lower-case mapping
    of strings.  Whatever is proved below holds for every choice of them. *)
Record Runtime : Type := {
  numberToString : Z -> jsstring;
  toNumber : Z -> Z;
  toLowerCase : jsstring -> jsstring
}.

Definition null_text : jsstring := Eval vm_compute in utf16 "null".

(** [String(v)] for an identifier value. *)
Definition idText (rt : Runtime) (v : idValue) : jsstring :=
  match v with
  | IdUndefined => undefined_text
  | IdNull => null_text
  | IdNumber n => numberToString rt n
  | IdString s => s
  end.

(** Truthiness of an identifier value: [undefined], [null], [0] and ['']
    are falsy. *)
Definition truthyId (v : idValue) : bool :=
  match v with
  | IdUndefined | IdNull => false
  | IdNumber n => negb (n =? 0)%Z
  | IdString [] => false
  | IdString (_ :: _) => true
  end.

Definition isDigit (c : N) : bool := ((48 <=? c) && (c <=? 57))%N.

(** The value of the leading decimal digits of [s], read after [acc], and
    whether there was any digit. *)
Fixpoint readDigits (acc : Z) (seen : bool) (s : jsstring) : Z * bool :=
  match s with
  | c :: s' =>
      if isDigit c then readDigits (10 * acc + Z.of_N (c - 48))%Z true s'
      else (acc, seen)
  | [] => (acc, seen)
  end.

(** [parseInt(s, 10)] on a string: leading white space is skipped, a sign
    is read, then the longest run of decimal digits; [None] is [NaN]. *)
Definition parseIntString (rt : Runtime) (s : jsstring) : option Z :=
  let s := trimStart s in
  let '(negative, s) :=
    match s with
    | c :: s' => if (c =? 45)%N then (true, s')
                 else if (c =? 43)%N then (false, s')
                 else (false, s)
    | [] => (false, s)
    end in
  match readDigits 0 false s with
  | (n, true) => Some (toNumber rt (if negative then - n else n)%Z)
  | (_, false) => None
  end.

(** [parseInt(v, 10)]: the argument is first turned into a string. *)
Definition parseInt (rt : Runtime) (v : idValue) : option Z :=
  parseIntString rt (idText rt v).

(** [parseInt(a, 10) === parseInt(b, 10)]; [NaN] equals nothing. *)
Definition sameParsedId (rt : Runtime) (a b : idValue) : bool :=
  match parseInt rt a, parseInt rt b with
  | Some x, Some y => (x =? y)%Z
  | _, _ => false
  end.

(* ================================================================== *)
(** ** Search ([performSearch]) *)

(** The employees handed to [displaySearchResults]; on the early return
    nothing is displayed.  [searchValue] and [cityValue] are the contents of
    the two input fields. *)
Definition performSearch (rt : Runtime) (employeeData : list Employee)
    (searchValue cityValue : jsstring) : list Employee :=
  let searchTerm := trim (toLowerCase rt searchValue) in
  let cityTerm := trim (toLowerCase rt cityValue) in
  if (length searchTerm =? 0) && (length cityTerm =? 0) then []
  else
    filter (fun emp =>
      let empName := toLowerCase rt (orElse (fullName emp) []) in
      let empId := if truthyId (employeeId emp) then idText rt (employeeId emp) else [] in
      let empCity := toLowerCase rt (orElse (city emp) []) in
      let postResponsibility := trim (orElse (postResponsibility emp) []) in
      let nameMatch :=
        match searchTerm with
        | _ :: _ => includes searchTerm empName || includes searchTerm empId
        | [] => true
        end in
      let cityMatch :=
        match cityTerm with
        | _ :: _ => includes cityTerm empCity
        | [] => true
        end in
      let responsibleMatch :=
        match cityTerm with
        | _ :: _ => includes kw_rais postResponsibility
                    || includes kw_raisa postResponsibility
                    || includes kw_wakil postResponsibility
                    || includes kw_wakila postResponsibility
        | [] => true
        end in
      nameMatch && cityMatch && responsibleMatch) employeeData.

(* ================================================================== *)
(** ** Managing the invited list *)

(** Which branch [addToInvitedList] took: the employee was pushed, or one
    of the two alerts was shown. *)
Inductive addOutcome : Type :=
| Added
| NotFound
| AlreadyInvited.

Definition addToInvitedList (rt : Runtime) (employeeData invitedList : list Employee)
    (id : idValue) : list Employee * addOutcome :=
  let employeeToAdd :=
    find (fun emp => sameParsedId rt (employeeId emp) id) employeeData in
  match employeeToAdd with
  | Some e =>
      if negb (existsb (fun emp => sameParsedId rt (employeeId emp) id) invitedList)
      then (invitedList ++ [e], Added)
      else (invitedList, AlreadyInvited)
  | None => (invitedList, NotFound)
  end.

Definition removeFromInvitedList (rt : Runtime) (invitedList : list Employee)
    (id : idValue) : list Employee :=
  filter (fun emp => negb (sameParsedId rt (employeeId emp) id)) invitedList.

(** The click on "clear all"; [confirmed] is the answer to the dialog, which
    is asked only when the list is not empty. *)
Definition clearAll (invitedList : list Employee) (confirmed : bool) : list Employee :=
  if (0 <? length invitedList) && confirmed then [] else invitedList.

(** The body of [rows.forEach] in the Excel import; [row[0]] of an empty row
    is [undefined]. *)
Definition importRow (rt : Runtime) (employeeData employeesToAdd : list Employee)
    (row : list idValue) : list Employee :=
  let id := hd IdUndefined row in
  if truthyId id then
    let foundEmployee :=
      find (fun emp => sameParsedId rt (employeeId emp) id) employeeData in
    let isAlreadyPending :=
      existsb (fun emp => sameParsedId rt (employeeId emp) id) employeesToAdd in
    match foundEmployee with
    | Some e => if negb isAlreadyPending then employeesToAdd ++ [e] else employeesToAdd
    | None => employeesToAdd
    end
  else employeesToAdd.

Definition employeesToAdd (rt : Runtime) (employeeData : list Employee)
    (rows : list (list idValue)) : list Employee :=
  fold_left (importRow rt employeeData) rows [].

(** The invited list after an import; [confirmed] is the answer to the
    replacement dialog, asked only when some employee was found. *)
Definition excelImport (rt : Runtime) (employeeData invitedList : list Employee)
    (rows : list (list idValue)) (confirmed : bool) : list Employee :=
  let toAdd := employeesToAdd rt employeeData rows in
  if 0 <? length toAdd then
    if confirmed then toAdd else invitedList
  else invitedList.

(** One user action on the invited list. *)
Inductive action : Type :=
| Add (id : idValue)
| Remove (id : idValue)
| Clear (confirmed : bool)
| Import (rows : list (list idValue)) (confirmed : bool).

Definition perform (rt : Runtime) (employeeData invitedList : list Employee)
    (a : action) : list Employee :=
  match a with
  | Add id => fst (addToInvitedList rt employeeData invitedList id)
  | Remove id => removeFromInvitedList rt invitedList id
  | Clear confirmed => clearAll invitedList confirmed
  | Import rows confirmed => excelImport rt employeeData invitedList rows confirmed
  end.

(* ================================================================== *)
(** ** The click handler as a whole *)

(** How a click on the generate button ends: one of the three early
    returns, all documents produced, or the [catch] branch. *)
Inductive generation : Type :=
| NoTemplate
| EmptyInvitedList
| LibrariesMissing
| Generated
| Aborted.

(** The loop over the groups.  [renders d] tells whether the template
    library processes the data [d] without throwing; a document is
    downloaded at the end of its iteration, so the documents of the groups
    before a failure have been produced. *)
Fixpoint produce (renders : DocData.t -> bool) (employeeData : list Employee)
    (groups : list (jsstring * Group.t)) : list DocData.t * bool :=
  match groups with
  | [] => ([], true)
  | (_, group) :: rest =>
      match setData employeeData group with
      | Ok d =>
          if renders d then
            let '(ds, completed) := produce renders employeeData rest in
            (d :: ds, completed)
          else ([], false)
      | TypeError => ([], false)
      end
  end.

Definition generateWord (renders : DocData.t -> bool)
    (templateLoaded librariesLoaded : bool)
    (employeeData invitedList : list Employee) : list DocData.t * generation :=
  if negb templateLoaded then ([], NoTemplate)
  else if length invitedList =? 0 then ([], EmptyInvitedList)
  else if negb librariesLoaded then ([], LibrariesMissing)
  else
    match groupedEmployees invitedList with
    | TypeError => ([], Aborted)
    | Ok groups =>
        let '(ds, completed) := produce renders employeeData groups in
        (ds, if completed then Generated else Aborted)
    end.

(* ================================================================== *)
(** ** Notions used to state the properties *)

(** [isKey t]: [t] is one of the keys of the grammar dictionary. *)
Definition isKey (t : jsstring) : Prop :=
  exists g, assoc t jobTitleGrammar = Some g.

Definition isMale (e : Employee) : Prop := gender e = Some MALE.

Definition isFemale (e : Employee) : Prop := gender e = Some FEMALE.

(** The two partitions, as the first two lines of [processGroupData] build
    them. *)
Definition malesOf (employees : list Employee) : list Employee :=
  filter (fun e => opt_eqb (gender e) (Some MALE)) employees.

Definition femalesOf (employees : list Employee) : list Employee :=
  filter (fun e => opt_eqb (gender e) (Some FEMALE)) employees.

(** The honorific of a partition, by its size. *)
Definition honorific (singular dual plural : jsstring) (count : nat) : jsstring :=
  match count with
  | 1 => singular
  | 2 => dual
  | _ => plural
  end.

(** The two segments as the specification words them: honorific, a space,
    the joined names; the male segment carries the preposition, the female
    one carries it only when there is no male, and the connector otherwise. *)
Definition maleSegment (males : list Employee) : jsstring :=
  match males with
  | [] => []
  | _ :: _ =>
      preposition ++ honorific MALE maleDual malePlural (length males)
      ++ space ++ joinNames males
  end.

Definition femaleSegment (males females : list Employee) : jsstring :=
  match females with
  | [] => []
  | _ :: _ =>
      match males with [] => preposition | _ :: _ => connector end
      ++ honorific FEMALE femaleDual femalePlural (length females)
      ++ space ++ joinNames females
  end.

(** The trimmed title of the first member, which the resolver normalizes. *)
Definition representativeTitle (employees : list Employee) : jsstring :=
  match employees with
  | e0 :: _ => trim (orElse (jobTitle e0) [])
  | [] => []
  end.

(** The members stored under a key ([[]] when there is no such group). *)
Definition membersAt (k : jsstring) (groups : list (jsstring * Group.t))
  : list Employee :=
  match assoc k groups with
  | Some g => Group.employees g
  | None => []
  end.

(** The employees of a list whose key is [k], in the order of the list. *)
Definition withKey (k : jsstring) (l : list Employee) : list Employee :=
  filter (fun e => str_eqb (groupKey e) k) l.

(** What the grouping maintains: keys are distinct, none is inherited, no
    group is empty, and every group carries the location fields of its
    first member. *)
Record wellGrouped (groups : list (jsstring * Group.t)) : Prop := {
  wg_keys : NoDup (map fst groups);
  wg_own : forall k g, assoc k groups = Some g -> inherited k = false;
  wg_head : forall k g, assoc k groups = Some g ->
      exists e0 rest, Group.employees g = e0 :: rest /\
        Group.workLocation g = workLocation e0 /\
        Group.division g = division e0 /\
        Group.city g = city e0 /\
        groupKey e0 = k
}.

(** The (workLocation, division, city) triple of an employee, an absent or
    empty component replaced by the sentinel. *)
Definition locationTriple (e : Employee) : jsstring * jsstring * jsstring :=
  (orElse (workLocation e) NA, orElse (division e) NA, orElse (city e) NA).

(** The title with the last character of its first token removed, as the
    specification describes the compound-title fallback. *)
Definition masculinized (title : jsstring) : jsstring :=
  dropLast (firstToken title) ++ skipn (length (firstToken title)) title.

(** [title] is one of the three feminine forms of some entry. *)
Definition isFeminineForm (title : jsstring) : Prop :=
  exists k g, In (k, g) jobTitleGrammar /\
    (Grammar.s (Grammar.f g) = title \/ Grammar.d (Grammar.f g) = title
     \/ Grammar.p (Grammar.f g) = title).

(** A title whose first token ends with the marker is recovered from its
    masculinized form by putting the marker back. *)
Definition feminized (root : jsstring) : jsstring :=
  firstToken root ++ feminineMarker ++ skipn (length (firstToken root)) root.

(** Membership in the dictionary, as a test. *)
Definition isKeyb (t : jsstring) : bool :=
  match assoc t jobTitleGrammar with
  | Some _ => true
  | None => false
  end.

(** The normalizer as the specification words it: a key is returned as it
    is, a feminine form gives the key of the first entry that has it, a
    title whose first token ends with the marker gives its masculinized form
    when that is a key, and any other title is returned unchanged. *)
Definition normalize (observedTitle : jsstring) : jsstring :=
  if isKeyb observedTitle then observedTitle
  else
    match find (isFeminineFormOf observedTitle) jobTitleGrammar with
    | Some (key, _) => key
    | None =>
        if endsWith feminineMarker (firstToken observedTitle)
           && isKeyb (masculinized observedTitle)
        then masculinized observedTitle
        else observedTitle
    end.

(** No two entries of a list have identifiers that [parseInt] reads as the
    same number. *)
Fixpoint distinctIds (rt : Runtime) (l : list Employee) : Prop :=
  match l with
  | [] => True
  | e :: l' =>
      (forall x, In x l' -> sameParsedId rt (employeeId e) (employeeId x) = false)
      /\ distinctIds rt l'
  end.

(** What every action on the invited list keeps: identifiers that are
    pairwise different as numbers, records taken from the roster,
    identifiers that parse. *)
Definition wellFormed (rt : Runtime) (employeeData l : list Employee) : Prop :=
  distinctIds rt l /\
  (forall e, In e l -> In e employeeData) /\
  (forall e, In e l -> parseInt rt (employeeId e) <> None).

(** The first roster record that [parseInt] identifies with [id]. *)
Definition rosterRecord (rt : Runtime) (employeeData : list Employee)
    (id : idValue) : option Employee :=
  find (fun emp => sameParsedId rt (employeeId emp) id) employeeData.

(** The keys of a list in the order of their first appearance. *)
Fixpoint firstSeen (seen ks : list jsstring) : list jsstring :=
  match ks with
  | [] => []
  | k :: ks' =>
      if existsb (str_eqb k) seen then firstSeen seen ks'
      else k :: firstSeen (seen ++ [k]) ks'
  end.

(** All members of all groups, group after group. *)
Definition allMembers (groups : list (jsstring * Group.t)) : list Employee :=
  concat (map (fun kg => Group.employees (snd kg)) groups).

(** The test that the lookup of the responsible person applies to a roster
    record, for a group whose first member is [e0]. *)
Definition responsibleFor (group : Group.t) (e0 e : Employee) : bool :=
  opt_eqb (workLocation e) (Group.workLocation group)
  && opt_eqb (division e) (Group.division group)
  && opt_eqb (city e) (city e0)
  && isResponsible e.

(** The document data of one group of a pass over [invitedList]. *)
Definition documentOf (employeeData invitedList : list Employee)
    (kg : jsstring * Group.t) (d : DocData.t) : Prop :=
  exists e0 rest,
    withKey (fst kg) invitedList = e0 :: rest /\
    let rp := find (responsibleFor (snd kg) e0) employeeData in
    DocData.workLocation d = workLocation e0 /\
    DocData.division d = division e0 /\
    DocData.employees d = filteredEmployees (e0 :: rest) rp /\
    DocData.responsibilityLine d = responsibilityLine rp /\
    processGroupData (DocData.employees d) = Ok (DocData.processedData d).

(* ================================================================== *)
(** ** Sample records *)

Definition employeeWithTitle (title : jsstring) : Employee :=
  {| employeeId := IdNumber 1;
     fullName := Some (utf16 "Ahmed");
     gender := Some MALE;
     jobTitle := Some title;
     postResponsibility := None;
     workLocation := None;
     division := None;
     city := None |}.

Definition employeeNamed (id : Z) (name : string) (g : jsstring) (title : string)
  : Employee :=
  {| employeeId := IdNumber id;
     fullName := Some (utf16 name);
     gender := Some g;
     jobTitle := Some (utf16 title);
     postResponsibility := None;
     workLocation := Some (utf16 "Tribunal");
     division := Some (utf16 "Civil");
     city := Some (utf16 "Rabat") |}.

Definition employeeWithoutGender : Employee :=
  {| employeeId := IdNumber 7;
     fullName := Some (utf16 "Nour");
     gender := None;
     jobTitle := Some (utf16 "قاضي");
     postResponsibility := None;
     workLocation := None;
     division := None;
     city := None |}.

Definition employeeWithoutIdAndGender : Employee :=
  {| employeeId := IdUndefined;
     fullName := Some (utf16 "Nour");
     gender := None;
     jobTitle := Some (utf16 "قاضي");
     postResponsibility := None;
     workLocation := Some (utf16 "Tribunal");
     division := Some (utf16 "Civil");
     city := Some (utf16 "Rabat") |}.

Definition employeeAt (id : Z) (name wl dv c : string) : Employee :=
  {| employeeId := IdNumber id;
     fullName := Some (utf16 name);
     gender := Some MALE;
     jobTitle := Some (utf16 "قاضي");
     postResponsibility := None;
     workLocation := Some (utf16 wl);
     division := Some (utf16 dv);
     city := Some (utf16 c) |}.

Definition presidentOfTribunal : Employee :=
  {| employeeId := IdNumber 9;
     fullName := Some (utf16 "Karim");
     gender := Some MALE;
     jobTitle := Some (utf16 "رئيس المحكمة");
     postResponsibility := Some (utf16 " رئيس ");
     workLocation := Some (utf16 "Tribunal");
     division := Some (utf16 "Civil");
     city := Some (utf16 "Rabat") |}.

Definition tribunalGroup : Group.t :=
  {| Group.workLocation := Some (utf16 "Tribunal");
     Group.division := Some (utf16 "Civil");
     Group.city := Some (utf16 "Rabat");
     Group.employees := [employeeNamed 1 "Ahmed" MALE "قاضي";
                         presidentOfTribunal;
                         employeeNamed 2 "Sara" FEMALE "قاضية"] |}.

Definition employeeWithNullId : Employee :=
  {| employeeId := IdNull;
     fullName := Some (utf16 "Nour");
     gender := Some FEMALE;
     jobTitle := Some (utf16 "قاضية");
     postResponsibility := None;
     workLocation := Some (utf16 "Tribunal");
     division := Some (utf16 "Civil");
     city := Some (utf16 "Rabat") |}.

(** A runtime for the samples: decimal digits for integers, no rounding,
    and lower-casing of the ASCII letters. *)
Fixpoint uintCodes (d : Decimal.uint) : jsstring :=
  match d with
  | Decimal.Nil => []
  | Decimal.D0 r => 48%N :: uintCodes r
  | Decimal.D1 r => 49%N :: uintCodes r
  | Decimal.D2 r => 50%N :: uintCodes r
  | Decimal.D3 r => 51%N :: uintCodes r
  | Decimal.D4 r => 52%N :: uintCodes r
  | Decimal.D5 r => 53%N :: uintCodes r
  | Decimal.D6 r => 54%N :: uintCodes r
  | Decimal.D7 r => 55%N :: uintCodes r
  | Decimal.D8 r => 56%N :: uintCodes r
  | Decimal.D9 r => 57%N :: uintCodes r
  end.

Definition decimalText (n : Z) : jsstring :=
  match Z.to_int n with
  | Decimal.Pos u => uintCodes u
  | Decimal.Neg u => 45%N :: uintCodes u
  end.

Definition asciiLower (s : jsstring) : jsstring :=
  map (fun c => if ((65 <=? c) && (c <=? 90))%N then (c + 32)%N else c) s.

Definition sampleRuntime : Runtime :=
  {| numberToString := decimalText;
     toNumber := fun n => n;
     toLowerCase := asciiLower |}.

Definition sampleRoster : list Employee :=
  [employeeNamed 1 "Ahmed" MALE "قاضي";
   employeeNamed 2 "Sara" FEMALE "قاضية";
   presidentOfTribunal].

Definition employeeWithoutGenderTitled (title : string) : Employee :=
  {| employeeId := IdNumber 7;
     fullName := Some (utf16 "Nour");
     gender := None;
     jobTitle := Some (utf16 title);
     postResponsibility := None;
     workLocation := Some (utf16 "Tribunal");
     division := Some (utf16 "Civil");
     city := Some (utf16 "Rabat") |}.

Definition presidentWithoutTitle : Employee :=
  {| employeeId := IdNumber 9;
     fullName := Some (utf16 "Karim");
     gender := Some MALE;
     jobTitle := None;
     postResponsibility := Some (utf16 "رئيس");
     workLocation := Some (utf16 "Tribunal");
     division := Some (utf16 "Civil");
     city := Some (utf16 "Rabat") |}.

(** The feminine forms of the dictionary, entry after entry. *)
Definition feminineForms : list jsstring :=
  flat_map (fun kg => [Grammar.s (Grammar.f (snd kg));
                       Grammar.d (Grammar.f (snd kg));
                       Grammar.p (Grammar.f (snd kg))]) jobTitleGrammar.

(* ================================================================== *)
(** * Properties *)

(** ** Worked scenarios *)

(** One male member: singular honorific with the preposition, singular
    masculine pronoun, masculine singular title. *)
Example scenario_single_male :
  processGroupData [employeeNamed 1 "Ahmed" MALE "قاضي"] =
    Ok {| GroupData.city := Some (utf16 "Rabat");
          GroupData.maleCollectiveTitle := utf16 "بالسيد Ahmed";
          GroupData.femaleCollectiveTitle := [];
          GroupData.computedVar := utf16 "المعني";
          GroupData.combinedJobTitle := utf16 "القاضي ب";
          GroupData.invitees_names := utf16 "Ahmed";
          GroupData.collective_title := utf16 "بالسيد Ahmed" |}.
Proof. vm_compute; reflexivity. Qed.

(** Two female members: dual feminine honorific, prefixed, no connector
    before the segment. *)
Example scenario_two_females :
  processGroupData [employeeNamed 1 "Sara" FEMALE "مستشارة";
                    employeeNamed 2 "Mona" FEMALE "مستشارة"] =
    Ok {| GroupData.city := Some (utf16 "Rabat");
          GroupData.maleCollectiveTitle := [];
          GroupData.femaleCollectiveTitle := utf16 "بالسيدتين Sara و Mona";
          GroupData.computedVar := utf16 "المعنيتين";
          GroupData.combinedJobTitle := utf16 "المستشارتين ب";
          GroupData.invitees_names := utf16 "Sara و Mona";
          GroupData.collective_title := utf16 "بالسيدتين Sara و Mona" |}.
Proof. vm_compute; reflexivity. Qed.

(** One male and one female member: the male segment, then the female
    segment led by the connector; dual masculine pronoun and title. *)
Example scenario_mixed_pair :
  processGroupData [employeeNamed 1 "Ahmed" MALE "نائب وكيل الملك";
                    employeeNamed 2 "Sara" FEMALE "نائبة وكيل الملك"] =
    Ok {| GroupData.city := Some (utf16 "Rabat");
          GroupData.maleCollectiveTitle := utf16 "بالسيد Ahmed";
          GroupData.femaleCollectiveTitle := utf16 " و السيدة Sara";
          GroupData.computedVar := utf16 "المعنيين";
          GroupData.combinedJobTitle := utf16 "نائبا وكيل الملك لدى";
          GroupData.invitees_names := utf16 "Ahmed و Sara";
          GroupData.collective_title := utf16 "بالسيد Ahmed و السيدة Sara" |}.
Proof. vm_compute; reflexivity. Qed.

(** A feminine dual form resolves to the root of its entry, and a compound
    title with the marker on its first word to the masculine compound. *)
Example scenario_normalizer :
  findMasculineRoot (utf16 "القاضيتين ب") = utf16 "قاضي" /\
  findMasculineRoot (utf16 "نائبة وكيل الملك") = utf16 "نائب وكيل الملك" /\
  findMasculineRoot (utf16 "كاتب الضبط") = utf16 "كاتب الضبط".
Proof. repeat split; vm_compute; reflexivity. Qed.

(** A whole pass: the invited president is the responsible person of the
    one group; the document data name the two other members only. *)
Example scenario_generate :
  let ahmed := employeeNamed 1 "Ahmed" MALE "قاضي" in
  let sara := employeeNamed 2 "Sara" FEMALE "قاضية" in
  exists processed,
    generate [ahmed; sara; presidentOfTribunal] [ahmed; presidentOfTribunal; sara] =
      Ok [ {| DocData.workLocation := Some (utf16 "Tribunal");
              DocData.division := Some (utf16 "Civil");
              DocData.employees := [ahmed; sara];
              DocData.responsibilityLine := utf16 "السيد رئيس المحكمة";
              DocData.processedData := processed |} ] /\
    GroupData.collective_title processed = utf16 "بالسيد Ahmed و السيدة Sara" /\
    GroupData.combinedJobTitle processed = utf16 "القاضيين ب".
Proof. eexists; repeat split; vm_compute; reflexivity. Qed.

(** ** Equality tests *)

Lemma str_eqb_eq (a b : jsstring) : str_eqb a b = true <-> a = b.
Proof.
  revert b; induction a as [|x a IH]; intros [|y b]; simpl;
    try (split; [discriminate | congruence]).
  - split; reflexivity.
  - rewrite andb_true_iff, N.eqb_eq, IH.
    split; [intros [-> ->]; reflexivity | intros E; inversion E; auto].
Qed.

Lemma str_eqb_refl (a : jsstring) : str_eqb a a = true.
Proof. apply str_eqb_eq; reflexivity. Qed.

Lemma str_eqb_neq (a b : jsstring) : str_eqb a b = false <-> a <> b.
Proof.
  rewrite <- str_eqb_eq. destruct (str_eqb a b); split; congruence.
Qed.

Lemma str_eqb_sym (a b : jsstring) : str_eqb a b = str_eqb b a.
Proof.
  destruct (str_eqb b a) eqn:E.
  - apply str_eqb_eq in E; subst; apply str_eqb_refl.
  - apply str_eqb_neq in E; apply str_eqb_neq; congruence.
Qed.

Lemma opt_eqb_eq (a b : option jsstring) : opt_eqb a b = true <-> a = b.
Proof.
  destruct a, b; simpl; try (split; congruence).
  rewrite str_eqb_eq; split; congruence.
Qed.

Lemma id_eqb_eq (a b : idValue) : id_eqb a b = true <-> a = b.
Proof.
  destruct a, b; simpl; try (split; congruence).
  - rewrite Z.eqb_eq; split; congruence.
  - rewrite str_eqb_eq; split; congruence.
Qed.

(** ** Property reads *)

Lemma getProp_own {A : Type} (o : list (jsstring * A)) k a :
  assoc k o = Some a -> getProp o k = Own a.
Proof. unfold getProp; intros ->; reflexivity. Qed.

Lemma getProp_undefined {A : Type} (o : list (jsstring * A)) k :
  assoc k o = None -> inherited k = false -> getProp o k = Undefined.
Proof. unfold getProp; intros -> ->; reflexivity. Qed.

Lemma getProp_inherited {A : Type} (o : list (jsstring * A)) k :
  assoc k o = None -> inherited k = true -> getProp o k = Inherited.
Proof. unfold getProp; intros -> ->; reflexivity. Qed.

Lemma not_isKey_assoc (t : jsstring) :
  ~ isKey t -> assoc t jobTitleGrammar = None.
Proof.
  intros H. destruct (assoc t jobTitleGrammar) eqn:E; [|reflexivity].
  exfalso; apply H; eexists; exact E.
Qed.

(** ** The resolver on the empty group *)

(** C1 (the code departs from the claim).  On the empty list
    [processGroupData] returns a record in which city, maleCollectiveTitle,
    femaleCollectiveTitle, collective_title, combinedJobTitle and
    invitees_names are the empty string, but computedVar (the contextual
    pronoun) is the feminine plural word and not the empty string: the final
    [else] of the pronoun selection also takes the count 0. *)
Theorem processGroupData_empty_group :
  processGroupData [] =
    Ok {| GroupData.city := Some [];
          GroupData.maleCollectiveTitle := [];
          GroupData.femaleCollectiveTitle := [];
          GroupData.computedVar := concerned_f_p;
          GroupData.combinedJobTitle := [];
          GroupData.invitees_names := [];
          GroupData.collective_title := [] |}
  /\ concerned_f_p <> [].
Proof. split; [reflexivity | discriminate]. Qed.

(** ** Pass-through of a title outside the dictionary *)

(** Counterexample to C2 as stated: the title " كاتب" (with a leading
    space) normalizes to no dictionary key, yet the agreed job title is the
    trimmed text "كاتب", not the original string. *)
Lemma passthrough_not_verbatim :
  let title := utf16 " كاتب" in
  ~ isKey (findMasculineRoot title) /\
  exists r, processGroupData [employeeWithTitle title] = Ok r /\
            GroupData.combinedJobTitle r = utf16 "كاتب" /\
            GroupData.combinedJobTitle r <> title.
Proof.
  split.
  - intros [g Hg]; vm_compute in Hg; discriminate.
  - eexists; split; [vm_compute; reflexivity|].
    split; [reflexivity | vm_compute; discriminate].
Qed.

(** C2 (amended).  For every non-empty group whose first member's job title,
    trimmed of surrounding white space (an absent title counting as empty)
    and then normalized, is neither a key of the grammar dictionary nor a
    property name that the dictionary object inherits, the resolver returns
    a record whose combinedJobTitle is that trimmed title. *)
Theorem combinedJobTitle_passthrough (e0 : Employee) (rest : list Employee) :
  let title := trim (orElse (jobTitle e0) []) in
  ~ isKey (findMasculineRoot title) ->
  inherited (findMasculineRoot title) = false ->
  exists r, processGroupData (e0 :: rest) = Ok r /\
            GroupData.combinedJobTitle r = title.
Proof.
  intros title Hkey Hinh.
  unfold processGroupData.
  fold title.
  rewrite (getProp_undefined _ _ (not_isKey_assoc _ Hkey) Hinh).
  simpl. eexists; split; reflexivity.
Qed.

Lemma combinedJobTitle_passthrough_witness :
  exists r, processGroupData [employeeWithTitle (utf16 " كاتب ")] = Ok r /\
            GroupData.combinedJobTitle r = utf16 "كاتب".
Proof.
  apply (combinedJobTitle_passthrough (employeeWithTitle (utf16 " كاتب ")) []).
  - intros [g Hg]; vm_compute in Hg; discriminate.
  - vm_compute; reflexivity.
Defined.

(** ** Gender partitions *)

Lemma isMale_test e : isMale e -> opt_eqb (gender e) (Some MALE) = true.
Proof. intros H; apply opt_eqb_eq; exact H. Qed.

Lemma isFemale_test e : isFemale e -> opt_eqb (gender e) (Some FEMALE) = true.
Proof. intros H; apply opt_eqb_eq; exact H. Qed.

Lemma isMale_not_female e : isMale e -> opt_eqb (gender e) (Some FEMALE) = false.
Proof. unfold isMale; intros ->; reflexivity. Qed.

Lemma isFemale_not_male e : isFemale e -> opt_eqb (gender e) (Some MALE) = false.
Proof. unfold isFemale; intros ->; reflexivity. Qed.

Lemma malesOf_Exists l : Exists isMale l -> 0 < length (malesOf l).
Proof.
  induction 1 as [e l H | e l _ IH]; simpl.
  - rewrite (isMale_test _ H); simpl; lia.
  - destruct (opt_eqb _ _); simpl; lia.
Qed.

Lemma malesOf_none l : ~ Exists isMale l -> malesOf l = [].
Proof.
  induction l as [|e l IH]; intros H; simpl; [reflexivity|].
  destruct (opt_eqb (gender e) (Some MALE)) eqn:E.
  - exfalso; apply H; left; apply opt_eqb_eq; exact E.
  - apply IH; intros H'; apply H; right; exact H'.
Qed.

Lemma femalesOf_all l : Forall isFemale l -> femalesOf l = l /\ malesOf l = [].
Proof.
  induction 1 as [|e l H _ [IH1 IH2]]; simpl; [split; reflexivity|].
  rewrite (isFemale_test _ H), (isFemale_not_male _ H), IH1, IH2; split; reflexivity.
Qed.

Lemma femalesOf_length l : length (femalesOf l) <= length l.
Proof. apply filter_length_le. Qed.

Lemma femalesOf_full l : length (femalesOf l) = length l -> Forall isFemale l.
Proof.
  induction l as [|e l IH]; simpl; intros H; [constructor|].
  destruct (opt_eqb (gender e) (Some FEMALE)) eqn:E; simpl in H.
  - constructor; [apply opt_eqb_eq; exact E | apply IH; lia].
  - pose proof (femalesOf_length l). unfold femalesOf in *. lia.
Qed.

(** A returned record is the one assembled at the end of
    [processGroupData]; [resolved H] exposes it. *)
Ltac resolved H :=
  unfold processGroupData in H;
  match type of H with
  | bind ?X _ = Ok _ =>
      let title := fresh "agreedTitle" in
      destruct X as [title|] eqn:?; simpl in H; [|discriminate H]
  end;
  injection H as H; subst.

(** ** Agreement of the contextual pronoun *)

(** The pronoun of a record that the resolver has returned, by count and
    gender composition. *)
Lemma computedVar_of_record (employees : list Employee) (r : GroupData.t) :
  Forall (fun e => isMale e \/ isFemale e) employees ->
  processGroupData employees = Ok r ->
  (forall e, employees = [e] -> isMale e ->
     GroupData.computedVar r = concerned_m_s) /\
  (forall e, employees = [e] -> isFemale e ->
     GroupData.computedVar r = concerned_f_s) /\
  (forall a b, employees = [a; b] -> isMale a -> isMale b ->
     GroupData.computedVar r = concerned_m_d) /\
  (forall a b, employees = [a; b] -> isFemale a -> isFemale b ->
     GroupData.computedVar r = concerned_f_d) /\
  (forall a b, employees = [a; b] ->
     (isMale a /\ isFemale b) \/ (isFemale a /\ isMale b) ->
     GroupData.computedVar r = concerned_m_d) /\
  (2 < length employees -> Exists isMale employees ->
     GroupData.computedVar r = concerned_m_p) /\
  (2 < length employees -> Forall isFemale employees ->
     GroupData.computedVar r = concerned_f_p).
Proof.
  intros _ H. resolved H. simpl.
  repeat split.
  - intros e -> Hm. simpl. rewrite (isMale_test _ Hm). reflexivity.
  - intros e -> Hf. simpl. rewrite (isFemale_not_male _ Hf). reflexivity.
  - intros a b -> Ha Hb. simpl.
    rewrite (isMale_test _ Ha), (isMale_test _ Hb). reflexivity.
  - intros a b -> Ha Hb. simpl.
    rewrite (isFemale_not_male _ Ha), (isFemale_not_male _ Hb),
            (isFemale_test _ Ha), (isFemale_test _ Hb). reflexivity.
  - intros a b -> [[Ha Hb] | [Ha Hb]]; simpl.
    + rewrite (isMale_test _ Ha), (isFemale_not_male _ Hb),
              (isMale_not_female _ Ha), (isFemale_test _ Hb). reflexivity.
    + rewrite (isFemale_not_male _ Ha), (isMale_test _ Hb),
              (isFemale_test _ Ha), (isMale_not_female _ Hb). reflexivity.
  - intros Hlen Hex.
    pose proof (malesOf_Exists _ Hex) as Hpos.
    destruct (length employees =? 1) eqn:E1; [apply Nat.eqb_eq in E1; lia|].
    destruct (length employees =? 2) eqn:E2; [apply Nat.eqb_eq in E2; lia|].
    apply Nat.ltb_lt in Hpos. unfold malesOf in Hpos. rewrite Hpos. reflexivity.
  - intros Hlen Hall.
    destruct (femalesOf_all _ Hall) as [_ Hm].
    destruct (length employees =? 1) eqn:E1; [apply Nat.eqb_eq in E1; lia|].
    destruct (length employees =? 2) eqn:E2; [apply Nat.eqb_eq in E2; lia|].
    unfold malesOf in Hm. rewrite Hm. reflexivity.
Qed.

(** C4 (the code departs from the claim).  A group of one male member whose
    job title is "toString" has only sentinel genders, so the claim has the
    singular masculine pronoun selected for it.  The code returns no record
    and hence no pronoun: after computedVar is assigned, the job-title step
    finds [jobTitleGrammar[root]] truthy for the inherited name "toString"
    and throws a TypeError on reading [grammarSet.m.s].  This is the defect
    of C7, met through the resolver. *)
Theorem pronoun_not_selected :
  let e := employeeNamed 1 "Ahmed" MALE "toString" in
  Forall (fun x => isMale x \/ isFemale x) [e] /\
  isMale e /\
  findMasculineRoot (representativeTitle [e]) = utf16 "toString" /\
  processGroupData [e] = TypeError.
Proof.
  split; [constructor; [left; reflexivity | constructor]|].
  repeat split; vm_compute; reflexivity.
Qed.

(** ** Agreement of the job title *)

(** The agreed title of a group whose representative title resolves to a
    dictionary entry, written with the counts the code compares. *)
Lemma processGroupData_in_dictionary (e0 : Employee) (rest : list Employee)
    (g : Grammar.entry) :
  let employees := e0 :: rest in
  assoc (findMasculineRoot (trim (orElse (jobTitle e0) []))) jobTitleGrammar = Some g ->
  exists r, processGroupData employees = Ok r /\
    GroupData.combinedJobTitle r =
      if length employees =? 1 then
        if length (malesOf employees) =? 1
        then Grammar.s (Grammar.m g) else Grammar.s (Grammar.f g)
      else if length employees =? 2 then
        if length (femalesOf employees) =? 2
        then Grammar.d (Grammar.f g) else Grammar.d (Grammar.m g)
      else
        if 0 <? length (malesOf employees)
        then Grammar.p (Grammar.m g) else Grammar.p (Grammar.f g).
Proof.
  intros employees Hg. subst employees.
  unfold processGroupData. cbv beta iota.
  set (employees := e0 :: rest).
  change (filter (fun e => opt_eqb (gender e) (Some MALE)) employees)
    with (malesOf employees).
  change (filter (fun e => opt_eqb (gender e) (Some FEMALE)) employees)
    with (femalesOf employees).
  rewrite (getProp_own _ _ _ Hg). cbn [truthy readForm].
  assert (Hpos : 0 < length employees) by (simpl; lia).
  destruct (length employees =? 1) eqn:E1.
  - destruct (length (malesOf employees) =? 1);
      (eexists; split; [reflexivity|]; cbn [GroupData.combinedJobTitle]; reflexivity).
  - destruct (length employees =? 2) eqn:E2.
    + destruct (length (femalesOf employees) =? 2);
        (eexists; split; [reflexivity|]; cbn [GroupData.combinedJobTitle]; reflexivity).
    + apply Nat.eqb_neq in E1, E2.
      assert (E3 : (2 <? length employees) = true) by (apply Nat.ltb_lt; lia).
      rewrite E3.
      destruct (0 <? length (malesOf employees));
        (eexists; split; [reflexivity|]; cbn [GroupData.combinedJobTitle]; reflexivity).
Qed.

(** Without the trim every feminine form leads back to a key; after the
    trim the nine forms of the first three entries still do and the six of
    the last two no longer do. *)
Example feminine_forms_after_trim :
  map (fun t => isKeyb (findMasculineRoot t)) feminineForms =
    [true; true; true; true; true; true; true; true; true;
     true; true; true; true; true; true] /\
  map (fun t => isKeyb (findMasculineRoot (trim t))) feminineForms =
    [true; true; true; true; true; true; true; true; true;
     false; false; false; false; false; false].
Proof. split; vm_compute; reflexivity. Qed.

(** C5 (the code departs from the claim).  The job title
    "نائبة وكيل الملك لدى " (the dictionary's own feminine singular form,
    which ends with a space) normalizes to the key "نائب وكيل الملك", so the
    claim has a single female member get that entry's feminine singular
    form.  The code trims the title before normalizing it, the trimmed text
    equals no form of the dictionary, and it is passed through: the agreed
    title lacks the final space of the form.  The six feminine forms of the
    last two entries all end with a space and are lost in this way
    ([feminine_forms_after_trim]). *)
Theorem agreement_not_on_untrimmed_title :
  let title := utf16 "نائبة وكيل الملك لدى " in
  let e := employeeNamed 1 "Sara" FEMALE "نائبة وكيل الملك لدى " in
  jobTitle e = Some title /\ isFemale e /\
  exists g, assoc (findMasculineRoot title) jobTitleGrammar = Some g /\
  exists r, processGroupData [e] = Ok r /\
            GroupData.combinedJobTitle r = utf16 "نائبة وكيل الملك لدى" /\
            GroupData.combinedJobTitle r <> Grammar.s (Grammar.f g).
Proof.
  split; [reflexivity|]. split; [reflexivity|].
  eexists; split; [vm_compute; reflexivity|].
  eexists; split; [vm_compute; reflexivity|].
  split; [reflexivity | vm_compute; discriminate].
Qed.

(** What holds of the agreed title: for every non-empty group whose first
    member's job title, trimmed of surrounding white space (an absent title
    counting as empty), normalizes to a key of the grammar dictionary, the
    resolver returns a record whose combinedJobTitle is that entry's form
    chosen by count and gender: one member gives the singular form of the
    member's gender; two members give the feminine dual form only if both
    are female, otherwise the masculine dual form; more than two members
    give the masculine plural form if a male is present, otherwise the
    feminine plural form. *)
Lemma combinedJobTitle_agreement (e0 : Employee) (rest : list Employee)
    (g : Grammar.entry) :
  let employees := e0 :: rest in
  assoc (findMasculineRoot (trim (orElse (jobTitle e0) []))) jobTitleGrammar = Some g ->
  exists r, processGroupData employees = Ok r /\
    (length employees = 1 -> isMale e0 ->
       GroupData.combinedJobTitle r = Grammar.s (Grammar.m g)) /\
    (length employees = 1 -> isFemale e0 ->
       GroupData.combinedJobTitle r = Grammar.s (Grammar.f g)) /\
    (length employees = 2 -> Forall isFemale employees ->
       GroupData.combinedJobTitle r = Grammar.d (Grammar.f g)) /\
    (length employees = 2 -> ~ Forall isFemale employees ->
       GroupData.combinedJobTitle r = Grammar.d (Grammar.m g)) /\
    (2 < length employees -> Exists isMale employees ->
       GroupData.combinedJobTitle r = Grammar.p (Grammar.m g)) /\
    (2 < length employees -> ~ Exists isMale employees ->
       GroupData.combinedJobTitle r = Grammar.p (Grammar.f g)).
Proof.
  intros employees Hg.
  destruct (processGroupData_in_dictionary e0 rest g Hg) as [r [Hr Ht]].
  fold employees in Hr, Ht.
  exists r; split; [exact Hr|]. rewrite Ht. clear Hr Ht.
  repeat split.
  - intros Hlen Hm. rewrite Hlen; simpl.
    destruct rest; [|discriminate Hlen]. simpl.
    rewrite (isMale_test _ Hm). reflexivity.
  - intros Hlen Hf. rewrite Hlen; simpl.
    destruct rest; [|discriminate Hlen]. simpl.
    rewrite (isFemale_not_male _ Hf). reflexivity.
  - intros Hlen Hall. rewrite Hlen; cbn [Nat.eqb].
    destruct (femalesOf_all _ Hall) as [-> _]. rewrite Hlen. reflexivity.
  - intros Hlen Hnot. rewrite Hlen; cbn [Nat.eqb].
    destruct (length (femalesOf employees) =? 2) eqn:E; [|reflexivity].
    exfalso; apply Hnot, femalesOf_full. apply Nat.eqb_eq in E. lia.
  - intros Hlen Hex.
    destruct (length employees =? 1) eqn:E1; [apply Nat.eqb_eq in E1; lia|].
    destruct (length employees =? 2) eqn:E2; [apply Nat.eqb_eq in E2; lia|].
    pose proof (malesOf_Exists _ Hex) as Hpos. apply Nat.ltb_lt in Hpos.
    rewrite Hpos. reflexivity.
  - intros Hlen Hnone.
    destruct (length employees =? 1) eqn:E1; [apply Nat.eqb_eq in E1; lia|].
    destruct (length employees =? 2) eqn:E2; [apply Nat.eqb_eq in E2; lia|].
    rewrite (malesOf_none _ Hnone). reflexivity.
Qed.

Lemma combinedJobTitle_agreement_witness :
  let e0 := employeeNamed 1 "Sara" FEMALE " قاضية " in
  let rest := [employeeNamed 2 "Mona" FEMALE "قاضية"] in
  exists r, processGroupData (e0 :: rest) = Ok r /\
    (length (e0 :: rest) = 2 -> Forall isFemale (e0 :: rest) ->
       GroupData.combinedJobTitle r = utf16 "القاضيتين ب").
Proof.
  intros e0 rest.
  assert (Hg : exists g,
             assoc (findMasculineRoot (trim (orElse (jobTitle e0) [])))
                   jobTitleGrammar = Some g
             /\ Grammar.d (Grammar.f g) = utf16 "القاضيتين ب").
  { eexists; split; vm_compute; reflexivity. }
  destruct Hg as [g [Hg Hd]].
  destruct (combinedJobTitle_agreement e0 rest g Hg) as (r & Hr & _ & _ & H & _).
  exists r; split; [exact Hr|]. rewrite <- Hd. exact H.
Defined.

(** ** The collective title *)

Lemma processGroupData_segments (employees : list Employee) (r : GroupData.t) :
  processGroupData employees = Ok r ->
  GroupData.maleCollectiveTitle r = maleSegment (malesOf employees) /\
  GroupData.femaleCollectiveTitle r =
    femaleSegment (malesOf employees) (femalesOf employees) /\
  GroupData.collective_title r =
    GroupData.maleCollectiveTitle r ++ GroupData.femaleCollectiveTitle r.
Proof.
  intros H. resolved H.
  cbn [GroupData.maleCollectiveTitle GroupData.femaleCollectiveTitle
       GroupData.collective_title].
  change (filter (fun e => opt_eqb (gender e) (Some MALE)) employees)
    with (malesOf employees).
  change (filter (fun e => opt_eqb (gender e) (Some FEMALE)) employees)
    with (femalesOf employees).
  destruct (malesOf employees) as [|m1 [|m2 [|m3 ms]]];
    destruct (femalesOf employees) as [|f1 [|f2 [|f3 fs]]];
    repeat split; simpl; rewrite ?app_nil_r; reflexivity.
Qed.

(** The collective title of a record that the resolver has returned. *)
Lemma collective_title_of_record (employees : list Employee) (r : GroupData.t) :
  processGroupData employees = Ok r ->
  let males := malesOf employees in
  let females := femalesOf employees in
  let maleTitle := honorific MALE maleDual malePlural (length males)
                   ++ space ++ join connector (map (fun e => elementText (fullName e)) males) in
  let femaleTitle := honorific FEMALE femaleDual femalePlural (length females)
                   ++ space ++ join connector (map (fun e => elementText (fullName e)) females) in
  (males = [] -> females = [] -> GroupData.collective_title r = []) /\
  (males <> [] -> females = [] ->
     GroupData.collective_title r = preposition ++ maleTitle) /\
  (males = [] -> females <> [] ->
     GroupData.collective_title r = preposition ++ femaleTitle) /\
  (males <> [] -> females <> [] ->
     GroupData.collective_title r =
       (preposition ++ maleTitle) ++ (connector ++ femaleTitle)).
Proof.
  intros H males females maleTitle femaleTitle.
  destruct (processGroupData_segments employees r H) as (Hm & Hf & ->).
  rewrite Hm, Hf. fold males females.
  unfold maleSegment, femaleSegment, maleTitle, femaleTitle, joinNames.
  repeat split; intros Hmales Hfemales.
  - rewrite Hmales, Hfemales. reflexivity.
  - rewrite Hfemales. destruct males; [congruence|]. apply app_nil_r.
  - rewrite Hmales. destruct females; [congruence|]. reflexivity.
  - destruct males; [congruence|]. destruct females; [congruence|]. reflexivity.
Qed.

(** C6 (the code departs from the claim).  For a group of two female
    members the claim has collective_title be the preposition, the dual
    feminine honorific and the two names joined by the connector.  When the
    first member's job title is "constructor" the code builds the two
    segments and then throws a TypeError in the job-title step, so no record
    and no collective_title is returned.  This is the defect of C7, met
    through the resolver. *)
Theorem collective_title_not_returned :
  let l := [employeeNamed 1 "Sara" FEMALE "constructor";
            employeeNamed 2 "Mona" FEMALE "قاضية"] in
  malesOf l = [] /\ femalesOf l = l /\
  findMasculineRoot (representativeTitle l) = utf16 "constructor" /\
  processGroupData l = TypeError.
Proof. repeat split; vm_compute; reflexivity. Qed.

(** ** A member whose gender is neither sentinel *)

Lemma malesOf_without l1 e l2 :
  gender e <> Some MALE -> malesOf (l1 ++ e :: l2) = malesOf (l1 ++ l2).
Proof.
  intros H. unfold malesOf. rewrite !filter_app. simpl.
  destruct (opt_eqb (gender e) (Some MALE)) eqn:E; [|reflexivity].
  apply opt_eqb_eq in E; contradiction.
Qed.

Lemma femalesOf_without l1 e l2 :
  gender e <> Some FEMALE -> femalesOf (l1 ++ e :: l2) = femalesOf (l1 ++ l2).
Proof.
  intros H. unfold femalesOf. rewrite !filter_app. simpl.
  destruct (opt_eqb (gender e) (Some FEMALE)) eqn:E; [|reflexivity].
  apply opt_eqb_eq in E; contradiction.
Qed.

Lemma malesOf_length l : length (malesOf l) <= length l.
Proof. apply filter_length_le. Qed.

Lemma processGroupData_computedVar (employees : list Employee) (r : GroupData.t) :
  processGroupData employees = Ok r ->
  GroupData.computedVar r =
    if length employees =? 1 then
      if length (malesOf employees) =? 1 then concerned_m_s else concerned_f_s
    else if length employees =? 2 then
      if length (malesOf employees) =? 2 then concerned_m_d
      else if length (femalesOf employees) =? 2 then concerned_f_d
      else concerned_m_d
    else
      if 0 <? length (malesOf employees) then concerned_m_p else concerned_f_p.
Proof. intros H. resolved H. reflexivity. Qed.

Lemma processGroupData_names (employees : list Employee) (r : GroupData.t) :
  processGroupData employees = Ok r ->
  GroupData.invitees_names r = joinNames employees.
Proof. intros H. resolved H. reflexivity. Qed.

(** A member of neither gender in a record that the resolver has
    returned. *)
Lemma unknown_gender_member_of_record (l1 l2 : list Employee) (e : Employee) (r : GroupData.t) :
  let employees := l1 ++ e :: l2 in
  let others := l1 ++ l2 in
  let name := fun x => elementText (fullName x) in
  gender e <> Some MALE -> gender e <> Some FEMALE ->
  processGroupData employees = Ok r ->
  (length others = 1 -> GroupData.computedVar r = concerned_m_d) /\
  (1 < length others -> Exists isMale others ->
     GroupData.computedVar r = concerned_m_p) /\
  (1 < length others -> ~ Exists isMale others ->
     GroupData.computedVar r = concerned_f_p) /\
  (forall g,
     assoc (findMasculineRoot (representativeTitle employees)) jobTitleGrammar = Some g ->
     (length others = 1 -> GroupData.combinedJobTitle r = Grammar.d (Grammar.m g)) /\
     (1 < length others -> Exists isMale others ->
        GroupData.combinedJobTitle r = Grammar.p (Grammar.m g)) /\
     (1 < length others -> ~ Exists isMale others ->
        GroupData.combinedJobTitle r = Grammar.p (Grammar.f g)) /\
     (others = [] -> GroupData.combinedJobTitle r = Grammar.s (Grammar.f g))) /\
  GroupData.invitees_names r =
    join connector (map name l1 ++ name e :: map name l2) /\
  GroupData.maleCollectiveTitle r = maleSegment (malesOf others) /\
  GroupData.femaleCollectiveTitle r =
    femaleSegment (malesOf others) (femalesOf others) /\
  GroupData.collective_title r =
    maleSegment (malesOf others) ++ femaleSegment (malesOf others) (femalesOf others) /\
  (others = [] ->
     GroupData.computedVar r = concerned_f_s /\ GroupData.collective_title r = []).
Proof.
  intros employees others name Hm Hf H.
  pose proof (malesOf_without l1 e l2 Hm) as EM.
  pose proof (femalesOf_without l1 e l2 Hf) as EF.
  fold employees others in EM, EF.
  assert (Hlen : length employees = S (length others)).
  { unfold employees, others. rewrite !length_app. simpl. lia. }
  pose proof (malesOf_length others) as LM.
  pose proof (femalesOf_length others) as LF.
  pose proof (processGroupData_computedVar employees r H) as Hv.
  destruct (processGroupData_segments employees r H) as (Hsm & Hsf & Hct).
  rewrite EM, EF in Hv. rewrite EM in Hsm. rewrite EM, EF in Hsf.
  rewrite Hsm, Hsf in Hct. rewrite Hlen in Hv.
  assert (Hpronoun1 : length others = 1 -> GroupData.computedVar r = concerned_m_d).
  { intros L. rewrite Hv, L. cbn [Nat.eqb].
    destruct (length (malesOf others) =? 2) eqn:E2; [reflexivity|].
    destruct (length (femalesOf others) =? 2) eqn:E3; [|reflexivity].
    apply Nat.eqb_eq in E3. lia. }
  repeat split.
  - exact Hpronoun1.
  - intros L Hex. rewrite Hv.
    destruct (S (length others) =? 1) eqn:E1; [apply Nat.eqb_eq in E1; lia|].
    destruct (S (length others) =? 2) eqn:E2; [apply Nat.eqb_eq in E2; lia|].
    pose proof (malesOf_Exists _ Hex) as Hpos. apply Nat.ltb_lt in Hpos.
    rewrite Hpos. reflexivity.
  - intros L Hnone. rewrite Hv.
    destruct (S (length others) =? 1) eqn:E1; [apply Nat.eqb_eq in E1; lia|].
    destruct (S (length others) =? 2) eqn:E2; [apply Nat.eqb_eq in E2; lia|].
    rewrite (malesOf_none _ Hnone). reflexivity.
  - intros L.
    destruct employees as [|e0 rest] eqn:Eemp; [discriminate Hlen|].
    destruct (processGroupData_in_dictionary e0 rest g H0) as (r' & Hr' & Ht).
    rewrite H in Hr'. injection Hr' as <-.
    rewrite Ht, EM, EF, Hlen, L. cbn [Nat.eqb].
    destruct (length (femalesOf others) =? 2) eqn:E3; [|reflexivity].
    apply Nat.eqb_eq in E3. lia.
  - intros L Hex.
    destruct employees as [|e0 rest] eqn:Eemp; [discriminate Hlen|].
    destruct (processGroupData_in_dictionary e0 rest g H0) as (r' & Hr' & Ht).
    rewrite H in Hr'. injection Hr' as <-.
    rewrite Ht, EM, Hlen.
    destruct (S (length others) =? 1) eqn:E1; [apply Nat.eqb_eq in E1; lia|].
    destruct (S (length others) =? 2) eqn:E2; [apply Nat.eqb_eq in E2; lia|].
    pose proof (malesOf_Exists _ Hex) as Hpos. apply Nat.ltb_lt in Hpos.
    rewrite Hpos. reflexivity.
  - intros L Hnone.
    destruct employees as [|e0 rest] eqn:Eemp; [discriminate Hlen|].
    destruct (processGroupData_in_dictionary e0 rest g H0) as (r' & Hr' & Ht).
    rewrite H in Hr'. injection Hr' as <-.
    rewrite Ht, EM, Hlen.
    destruct (S (length others) =? 1) eqn:E1; [apply Nat.eqb_eq in E1; lia|].
    destruct (S (length others) =? 2) eqn:E2; [apply Nat.eqb_eq in E2; lia|].
    rewrite (malesOf_none _ Hnone). reflexivity.
  - intros L.
    destruct employees as [|e0 rest] eqn:Eemp; [discriminate Hlen|].
    destruct (processGroupData_in_dictionary e0 rest g H0) as (r' & Hr' & Ht).
    rewrite H in Hr'. injection Hr' as <-.
    rewrite Ht, EM, Hlen, L. reflexivity.
  - rewrite (processGroupData_names employees r H).
    unfold joinNames, employees. rewrite map_app. reflexivity.
  - exact Hsm.
  - exact Hsf.
  - exact Hct.
  - rewrite Hv, H0. reflexivity.
  - rewrite Hct, H0. reflexivity.
Qed.

(** C10 (the code departs from the claim).  A group of exactly one member
    whose gender is absent has, by the claim, the feminine singular pronoun
    and an empty collective_title.  When that member's job title is
    " valueOf " the code returns neither: the title is trimmed to the
    inherited name "valueOf", the job-title step throws a TypeError, and no
    record is returned.  This is the defect of C7, met through the
    resolver. *)
Theorem unknown_gender_member_not_resolved :
  let e := employeeWithoutGenderTitled " valueOf " in
  gender e <> Some MALE /\ gender e <> Some FEMALE /\
  findMasculineRoot (representativeTitle [e]) = utf16 "valueOf" /\
  processGroupData [e] = TypeError.
Proof.
  repeat split; try discriminate; vm_compute; reflexivity.
Qed.

(* ================================================================== *)
(** ** The partition into groups *)

Section Objects.
Context {A : Type}.

Lemma assoc_setProp_same (k : jsstring) (a : A) (o : list (jsstring * A)) :
  assoc k (setProp k a o) = Some a.
Proof.
  induction o as [|[k' a'] o IH]; simpl.
  - rewrite str_eqb_refl; reflexivity.
  - destruct (str_eqb k' k) eqn:E; simpl; rewrite E; auto.
Qed.

Lemma assoc_setProp_other (k k' : jsstring) (a : A) (o : list (jsstring * A)) :
  k' <> k -> assoc k' (setProp k a o) = assoc k' o.
Proof.
  intros Hne. induction o as [|[k0 a0] o IH]; simpl.
  - destruct (str_eqb k k') eqn:E; [|reflexivity].
    apply str_eqb_eq in E; congruence.
  - destruct (str_eqb k0 k) eqn:E; simpl.
    + apply str_eqb_eq in E; subst k0.
      destruct (str_eqb k k') eqn:E'; [|reflexivity].
      apply str_eqb_eq in E'; congruence.
    + rewrite IH; reflexivity.
Qed.

Lemma assoc_In (k : jsstring) (a : A) (o : list (jsstring * A)) :
  assoc k o = Some a -> In (k, a) o.
Proof.
  induction o as [|[k' a'] o IH]; simpl; [discriminate|].
  destruct (str_eqb k' k) eqn:E.
  - apply str_eqb_eq in E; intros [= ->]; subst; left; reflexivity.
  - intros H; right; auto.
Qed.

Lemma In_assoc (k : jsstring) (a : A) (o : list (jsstring * A)) :
  NoDup (map fst o) -> In (k, a) o -> assoc k o = Some a.
Proof.
  induction o as [|[k' a'] o IH]; simpl; [contradiction|].
  intros Hnd [H | H].
  - injection H as -> ->. rewrite str_eqb_refl; reflexivity.
  - inversion Hnd as [|? ? Hnot Hnd']; subst.
    destruct (str_eqb k' k) eqn:E; [|auto].
    apply str_eqb_eq in E; subst k'.
    exfalso; apply Hnot. apply (in_map fst) in H; exact H.
Qed.

(** Assigning to a property keeps the enumeration order of the keys and
    appends a key that is new. *)
Lemma keys_setProp (k : jsstring) (a : A) (o : list (jsstring * A)) :
  map fst (setProp k a o) =
    match assoc k o with
    | Some _ => map fst o
    | None => map fst o ++ [k]
    end.
Proof.
  induction o as [|[k' a'] o IH]; simpl; [reflexivity|].
  destruct (str_eqb k' k) eqn:E; simpl; [reflexivity|].
  rewrite IH. destruct (assoc k o); reflexivity.
Qed.

Lemma assoc_None_keys (k : jsstring) (o : list (jsstring * A)) :
  assoc k o = None -> ~ In k (map fst o).
Proof.
  induction o as [|[k' a'] o IH]; simpl; [tauto|].
  destruct (str_eqb k' k) eqn:E; [discriminate|].
  apply str_eqb_neq in E. intros H [H' | H']; [congruence | exact (IH H H')].
Qed.
End Objects.

Lemma wellGrouped_nil : wellGrouped [].
Proof. constructor; simpl; [constructor | discriminate | discriminate]. Qed.

(** One step of the reduction: it throws exactly on a new key that names an
    inherited property; otherwise the employee is appended to its group. *)
Lemma groupStep_throws (acc : list (jsstring * Group.t)) (emp : Employee) :
  assoc (groupKey emp) acc = None -> inherited (groupKey emp) = true ->
  groupStep acc emp = TypeError.
Proof.
  intros Hnone Hinh. unfold groupStep.
  rewrite (getProp_inherited _ _ Hnone Hinh). simpl.
  rewrite (getProp_inherited _ _ Hnone Hinh). reflexivity.
Qed.

Lemma groupStep_appends (acc : list (jsstring * Group.t)) (emp : Employee) :
  wellGrouped acc ->
  inherited (groupKey emp) = false ->
  exists acc', groupStep acc emp = Ok acc' /\ wellGrouped acc' /\
    (forall k, membersAt k acc' =
               membersAt k acc ++ withKey k [emp]) /\
    map fst acc' = match assoc (groupKey emp) acc with
                   | Some _ => map fst acc
                   | None => map fst acc ++ [groupKey emp]
                   end.
Proof.
  intros WG Hinh. unfold groupStep.
  set (key := groupKey emp) in *.
  destruct (assoc key acc) as [g|] eqn:Hg.
  - rewrite (getProp_own _ _ _ Hg). simpl.
    rewrite (getProp_own _ _ _ Hg).
    eexists; split; [reflexivity|]. split; [|split].
    + constructor.
      * rewrite keys_setProp, Hg. apply (wg_keys _ WG).
      * intros k g' H. destruct (str_eqb k key) eqn:E.
        -- apply str_eqb_eq in E; subst k. exact Hinh.
        -- apply str_eqb_neq in E. rewrite (assoc_setProp_other _ _ _ _ E) in H.
           exact (wg_own _ WG _ _ H).
      * intros k g' H. destruct (str_eqb k key) eqn:E.
        -- apply str_eqb_eq in E; subst k.
           rewrite assoc_setProp_same in H. injection H as <-.
           destruct (wg_head _ WG _ _ Hg) as (e0 & rest & He & Hw & Hd & Hc & Hk).
           exists e0, (rest ++ [emp]). simpl. rewrite He. auto.
        -- apply str_eqb_neq in E. rewrite (assoc_setProp_other _ _ _ _ E) in H.
           exact (wg_head _ WG _ _ H).
    + intros k. unfold membersAt, withKey. simpl. fold key.
      destruct (str_eqb key k) eqn:E.
      * apply str_eqb_eq in E; subst k.
        rewrite assoc_setProp_same, Hg. reflexivity.
      * apply str_eqb_neq in E.
        rewrite (assoc_setProp_other _ _ _ _ (not_eq_sym E)), app_nil_r. reflexivity.
    + rewrite keys_setProp, Hg. reflexivity.
  - rewrite (getProp_undefined _ _ Hg Hinh). simpl.
    rewrite (getProp_own _ _ _ (assoc_setProp_same key _ acc)).
    eexists; split; [reflexivity|]. split; [|split].
    + constructor.
      * rewrite keys_setProp, assoc_setProp_same, keys_setProp, Hg.
        apply NoDup_app; [apply (wg_keys _ WG) | repeat constructor; simpl; tauto |].
        intros k Hin [<- | []]. exact (assoc_None_keys _ _ Hg Hin).
      * intros k g' H. destruct (str_eqb k key) eqn:E.
        -- apply str_eqb_eq in E; subst k. exact Hinh.
        -- apply str_eqb_neq in E.
           rewrite !(assoc_setProp_other _ _ _ _ E) in H.
           exact (wg_own _ WG _ _ H).
      * intros k g' H. destruct (str_eqb k key) eqn:E.
        -- apply str_eqb_eq in E; subst k.
           rewrite assoc_setProp_same in H. injection H as <-.
           exists emp, []. simpl. auto.
        -- apply str_eqb_neq in E.
           rewrite !(assoc_setProp_other _ _ _ _ E) in H.
           exact (wg_head _ WG _ _ H).
    + intros k. unfold membersAt, withKey. simpl. fold key.
      destruct (str_eqb key k) eqn:E.
      * apply str_eqb_eq in E; subst k.
        rewrite assoc_setProp_same, Hg. reflexivity.
      * apply str_eqb_neq in E.
        rewrite !(assoc_setProp_other _ _ _ _ (not_eq_sym E)), app_nil_r. reflexivity.
    + rewrite keys_setProp, assoc_setProp_same, keys_setProp, Hg. reflexivity.
Qed.

Lemma withKey_app k l1 l2 : withKey k (l1 ++ l2) = withKey k l1 ++ withKey k l2.
Proof. apply filter_app. Qed.

Lemma reduce_groupStep (l : list Employee) :
  forall acc, wellGrouped acc ->
    (forall e, In e l -> inherited (groupKey e) = false) ->
    exists groups, reduce groupStep l acc = Ok groups /\ wellGrouped groups /\
      forall k, membersAt k groups = membersAt k acc ++ withKey k l.
Proof.
  induction l as [|emp l IH]; intros acc WG Hinh; simpl.
  - exists acc; split; [reflexivity|]; split; [exact WG|].
    intros k; symmetry; apply app_nil_r.
  - destruct (groupStep_appends acc emp WG (Hinh emp (or_introl eq_refl)))
      as (acc' & Hstep & WG' & Hmem & _).
    rewrite Hstep; simpl.
    destruct (IH acc' WG' (fun e H => Hinh e (or_intror H)))
      as (groups & Hred & WGg & Hall).
    exists groups; split; [exact Hred|]; split; [exact WGg|].
    intros k. rewrite Hall, Hmem, <- app_assoc.
    rewrite <- withKey_app. reflexivity.
Qed.

Lemma reduce_groupStep_throws (l : list Employee) :
  forall acc, wellGrouped acc ->
    Exists (fun e => inherited (groupKey e) = true) l ->
    reduce groupStep l acc = TypeError.
Proof.
  induction l as [|emp l IH]; intros acc WG Hex; [inversion Hex|]. simpl.
  destruct (inherited (groupKey emp)) eqn:Hi.
  - destruct (assoc (groupKey emp) acc) as [g|] eqn:Hg.
    + rewrite (wg_own _ WG _ _ Hg) in Hi; discriminate.
    + rewrite (groupStep_throws acc emp Hg Hi); reflexivity.
  - destruct (groupStep_appends acc emp WG Hi) as (acc' & Hstep & WG' & _).
    rewrite Hstep; simpl. apply (IH acc' WG').
    inversion Hex as [? ? H | ? ? H]; subst; [congruence | exact H].
Qed.

(** The grouping completes exactly when no key names a property that objects
    inherit; it then files every employee under its key, in list order. *)
Lemma groupedEmployees_returns (invitedList : list Employee) :
  (forall e, In e invitedList -> inherited (groupKey e) = false) ->
  exists groups, groupedEmployees invitedList = Ok groups /\ wellGrouped groups /\
    forall k, membersAt k groups = withKey k invitedList.
Proof.
  intros H. exact (reduce_groupStep invitedList [] wellGrouped_nil H).
Qed.

Lemma groupedEmployees_partition (invitedList : list Employee)
    (groups : list (jsstring * Group.t)) :
  groupedEmployees invitedList = Ok groups ->
  wellGrouped groups /\ forall k, membersAt k groups = withKey k invitedList.
Proof.
  intros H.
  destruct (Forall_Exists_dec (fun e => inherited (groupKey e) = false)
              (fun e => bool_dec (inherited (groupKey e)) false) invitedList)
    as [Hall | Hex].
  - rewrite Forall_forall in Hall.
    destruct (groupedEmployees_returns invitedList Hall) as (groups' & Hg & WG & Hm).
    rewrite H in Hg; injection Hg as <-. split; assumption.
  - exfalso.
    assert (Hex' : Exists (fun e => inherited (groupKey e) = true) invitedList).
    { apply Exists_exists in Hex. destruct Hex as (e & Hin & Hne).
      apply Exists_exists. exists e; split; [exact Hin|].
      destruct (inherited (groupKey e)); congruence. }
    unfold groupedEmployees in H.
    rewrite (reduce_groupStep_throws invitedList [] wellGrouped_nil Hex') in H.
    discriminate.
Qed.

(** Membership in a listed group. *)
Lemma groupedEmployees_member (invitedList : list Employee)
    (groups : list (jsstring * Group.t)) (k : jsstring) (g : Group.t) (e : Employee) :
  groupedEmployees invitedList = Ok groups ->
  In (k, g) groups ->
  Group.employees g = withKey k invitedList /\
  (In e (Group.employees g) <-> In e invitedList /\ groupKey e = k).
Proof.
  intros H Hin.
  destruct (groupedEmployees_partition invitedList groups H) as [WG Hm].
  assert (Hg : Group.employees g = withKey k invitedList).
  { rewrite <- Hm. unfold membersAt.
    rewrite (In_assoc k g groups (wg_keys _ WG) Hin). reflexivity. }
  split; [exact Hg|].
  rewrite Hg. unfold withKey. rewrite filter_In, str_eqb_eq. tauto.
Qed.

(** ** Records with missing fields are grouped like any other *)

(** Counterexample to C3 as stated: a record with neither an identifier
    nor a gender, invited after a complete record of the same location, is
    a member of the one group that the partitioning step produces. *)
Lemma malformed_record_is_grouped :
  let e := employeeWithoutIdAndGender in
  let invitedList := [employeeNamed 1 "Ahmed" MALE "قاضي"; e] in
  employeeId e = IdUndefined /\ gender e = None /\
  exists k g, groupedEmployees invitedList = Ok [(k, g)] /\
              In e (Group.employees g).
Proof.
  split; [reflexivity|]. split; [reflexivity|].
  eexists; eexists; split; [vm_compute; reflexivity|].
  right; left; reflexivity.
Qed.

(** C3 (amended).  The partitioning step excludes no record: for every
    invited list none of whose group keys names a property inherited from
    [Object.prototype], the pass completes, and every employee of the list,
    whatever fields it lacks (identifier and gender included), is a member
    of the group stored under its key. *)
Theorem groupedEmployees_excludes_no_record (invitedList : list Employee) :
  (forall e, In e invitedList -> inherited (groupKey e) = false) ->
  exists groups, groupedEmployees invitedList = Ok groups /\
    forall e, In e invitedList ->
      exists g, assoc (groupKey e) groups = Some g /\ In e (Group.employees g).
Proof.
  intros Hinh.
  destruct (groupedEmployees_returns invitedList Hinh) as (groups & Hg & WG & Hm).
  exists groups; split; [exact Hg|].
  intros e Hin.
  assert (He : In e (membersAt (groupKey e) groups)).
  { rewrite Hm. unfold withKey. apply filter_In. split; [exact Hin|].
    apply str_eqb_refl. }
  unfold membersAt in He.
  destruct (assoc (groupKey e) groups) as [g|]; [|contradiction].
  exists g; split; [reflexivity | exact He].
Qed.

Lemma groupedEmployees_excludes_no_record_witness :
  let e := employeeWithoutIdAndGender in
  let invitedList := [employeeNamed 1 "Ahmed" MALE "قاضي"; e] in
  exists groups, groupedEmployees invitedList = Ok groups /\
    exists g, assoc (groupKey e) groups = Some g /\ In e (Group.employees g).
Proof.
  intros e invitedList.
  assert (Hinh : forall x, In x invitedList -> inherited (groupKey x) = false).
  { intros x [<- | [<- | []]]; vm_compute; reflexivity. }
  destruct (groupedEmployees_excludes_no_record invitedList Hinh) as (groups & Hg & Hall).
  exists groups; split; [exact Hg|].
  apply Hall. right; left; reflexivity.
Defined.

(** ** Groups and location triples *)

Lemma groupKey_of_triple (a b : Employee) :
  locationTriple a = locationTriple b -> groupKey a = groupKey b.
Proof.
  unfold locationTriple, groupKey. intros [= -> -> ->]. reflexivity.
Qed.

Lemma split_at_underscore (a a' b b' : jsstring) :
  ~ In 95%N a -> ~ In 95%N a' ->
  a ++ underscore ++ b = a' ++ underscore ++ b' -> a = a' /\ b = b'.
Proof.
  revert a'. induction a as [|x a IH]; intros [|y a'] Ha Ha'; simpl; intros E.
  - injection E as ->. split; reflexivity.
  - injection E as <- _. exfalso; apply Ha'; left; reflexivity.
  - injection E as -> _. exfalso; apply Ha; left; reflexivity.
  - injection E as -> E.
    destruct (IH a') as [-> ->]; auto.
    + intros H; apply Ha; right; exact H.
    + intros H; apply Ha'; right; exact H.
Qed.

(** When no work location and no division contains an underscore, the key
    string determines the triple. *)
Lemma groupKey_triple_without_underscore (a b : Employee) :
  ~ In 95%N (orElse (workLocation a) NA) -> ~ In 95%N (orElse (division a) NA) ->
  ~ In 95%N (orElse (workLocation b) NA) -> ~ In 95%N (orElse (division b) NA) ->
  groupKey a = groupKey b -> locationTriple a = locationTriple b.
Proof.
  unfold groupKey, locationTriple. intros Hwa Hda Hwb Hdb E.
  destruct (split_at_underscore _ _ _ _ Hwa Hwb E) as [-> E'].
  destruct (split_at_underscore _ _ _ _ Hda Hdb E') as [-> ->].
  reflexivity.
Qed.

(** The grouping is a partition of the invited list: a listed group holds
    the employees with its key in invited order, and an employee (or, when
    identifiers are unique, an identifier) occurs in one group only. *)
Lemma groupedEmployees_one_group (invitedList : list Employee)
    (groups : list (jsstring * Group.t)) (k1 k2 : jsstring) (g1 g2 : Group.t)
    (e1 e2 : Employee) :
  NoDup (map employeeId invitedList) ->
  groupedEmployees invitedList = Ok groups ->
  In (k1, g1) groups -> In (k2, g2) groups ->
  In e1 (Group.employees g1) -> In e2 (Group.employees g2) ->
  employeeId e1 = employeeId e2 ->
  e1 = e2 /\ k1 = k2 /\ g1 = g2.
Proof.
  intros Hids H Hin1 Hin2 He1 He2 Hid.
  destruct (groupedEmployees_partition invitedList groups H) as [WG _].
  destruct (groupedEmployees_member invitedList groups k1 g1 e1 H Hin1) as [_ M1].
  destruct (groupedEmployees_member invitedList groups k2 g2 e2 H Hin2) as [_ M2].
  apply M1 in He1. apply M2 in He2. destruct He1 as [I1 K1], He2 as [I2 K2].
  assert (Heq : e1 = e2).
  { clear - Hids I1 I2 Hid. induction invitedList as [|x l IH]; [contradiction|].
    simpl in Hids. inversion Hids as [|? ? Hnot Hnd]; subst.
    destruct I1 as [-> | I1], I2 as [-> | I2]; auto.
    - exfalso; apply Hnot. rewrite Hid. apply in_map; exact I2.
    - exfalso; apply Hnot. rewrite <- Hid. apply in_map; exact I1. }
  subst e2. split; [reflexivity|].
  assert (Hk : k1 = k2) by congruence. split; [exact Hk|].
  rewrite <- Hk in Hin2.
  pose proof (In_assoc k1 g1 groups (wg_keys _ WG) Hin1) as A1.
  pose proof (In_assoc k1 g2 groups (wg_keys _ WG) Hin2) as A2.
  congruence.
Qed.

Lemma groupedEmployees_same_group (invitedList : list Employee)
    (groups : list (jsstring * Group.t)) (a b : Employee) :
  groupedEmployees invitedList = Ok groups ->
  In a invitedList -> In b invitedList ->
  (exists k g, In (k, g) groups /\ In a (Group.employees g) /\ In b (Group.employees g))
  <-> groupKey a = groupKey b.
Proof.
  intros H Ha Hb. split.
  - intros (k & g & Hin & Ia & Ib).
    destruct (groupedEmployees_member invitedList groups k g a H Hin) as [_ Ma].
    destruct (groupedEmployees_member invitedList groups k g b H Hin) as [_ Mb].
    apply Ma in Ia. apply Mb in Ib. destruct Ia, Ib. congruence.
  - intros E.
    destruct (groupedEmployees_partition invitedList groups H) as [WG Hm].
    assert (Ia : In a (membersAt (groupKey a) groups)).
    { rewrite Hm. apply filter_In. split; [exact Ha | apply str_eqb_refl]. }
    assert (Ib : In b (membersAt (groupKey a) groups)).
    { rewrite Hm. apply filter_In. split; [exact Hb|].
      rewrite E. apply str_eqb_refl. }
    unfold membersAt in Ia, Ib.
    destruct (assoc (groupKey a) groups) as [g|] eqn:Hg; [|contradiction].
    exists (groupKey a), g. split; [apply assoc_In; exact Hg | split; assumption].
Qed.

(** C9 (the code departs from the claim).  Two invited employees with
    distinct identifiers and different (workLocation, division, city)
    triples, ("TPI_Rabat", "Civil", "Rabat") and ("TPI", "Rabat_Civil",
    "Rabat"), get the same key string "TPI_Rabat_Civil_Rabat" and land in
    one group, which carries the location fields of the first of them. *)
Theorem groupKey_collision :
  let a := employeeAt 1 "Ahmed" "TPI_Rabat" "Civil" "Rabat" in
  let b := employeeAt 2 "Omar" "TPI" "Rabat_Civil" "Rabat" in
  employeeId a <> employeeId b /\
  locationTriple a <> locationTriple b /\
  groupKey a = utf16 "TPI_Rabat_Civil_Rabat" /\
  groupKey b = utf16 "TPI_Rabat_Civil_Rabat" /\
  groupedEmployees [a; b] =
    Ok [(utf16 "TPI_Rabat_Civil_Rabat",
         {| Group.workLocation := Some (utf16 "TPI_Rabat");
            Group.division := Some (utf16 "Civil");
            Group.city := Some (utf16 "Rabat");
            Group.employees := [a; b] |})].
Proof.
  repeat split; try (vm_compute; discriminate); vm_compute; reflexivity.
Qed.

(* ================================================================== *)
(** ** The responsible person *)

Lemma findR_found {A : Type} (f : A -> result bool) (l : list A) (x : A) :
  findR f l = Ok (Some x) -> In x l /\ f x = Ok true.
Proof.
  induction l as [|y l IH]; simpl; [discriminate|].
  destruct (f y) as [[|]|] eqn:E; simpl; try discriminate.
  - intros [= ->]. split; [left; reflexivity | exact E].
  - intros H. destruct (IH H). split; [right|]; assumption.
Qed.

(** A found responsible person is a roster record of the group's location
    that [isResponsible] accepts. *)
Lemma responsiblePerson_found (employeeData : list Employee) (group : Group.t)
    (rp : Employee) :
  responsiblePerson employeeData group = Ok (Some rp) ->
  In rp employeeData /\ isResponsible rp = true /\
  workLocation rp = Group.workLocation group /\
  division rp = Group.division group.
Proof.
  intros H. apply findR_found in H. destruct H as [Hin H].
  split; [exact Hin|].
  destruct (opt_eqb (workLocation rp) (Group.workLocation group)) eqn:Ew;
    [|simpl in H; discriminate].
  destruct (opt_eqb (division rp) (Group.division group)) eqn:Ed;
    [|simpl in H; discriminate].
  simpl in H. apply opt_eqb_eq in Ew, Ed.
  destruct (Group.employees group) as [|e0 rest]; [discriminate|].
  destruct (negb (opt_eqb (city rp) (city e0))); [discriminate|].
  injection H as H. auto.
Qed.

(** What holds whenever a responsible person [rp] is found, whether or not
    the resolver then returns: the filtered member list is the group's
    list, in order, without the records that carry the identifier of [rp];
    the line is the female honorific for the female sentinel and the male
    honorific for any other gender, then a space, then the job title, an
    absent title printing as the word undefined; and the loop body hands
    exactly this list to the resolver and puts list, line and the resolver's
    record into the document data. *)
Lemma responsible_person_excluded (employeeData : list Employee)
    (group : Group.t) (rp : Employee) :
  responsiblePerson employeeData group = Ok (Some rp) ->
  let filtered := filteredEmployees (Group.employees group) (Some rp) in
  let line := responsibilityLine (Some rp) in
  In rp employeeData /\
  filtered = filter (fun e => negb (id_eqb (employeeId e) (employeeId rp)))
                    (Group.employees group) /\
  (forall e, In e filtered <->
             In e (Group.employees group) /\ employeeId e <> employeeId rp) /\
  ~ In rp filtered /\
  (isFemale rp -> line = FEMALE ++ space ++ toText (jobTitle rp)) /\
  (~ isFemale rp -> line = MALE ++ space ++ toText (jobTitle rp)) /\
  setData employeeData group =
    match processGroupData filtered with
    | Ok processed =>
        Ok {| DocData.workLocation := Group.workLocation group;
              DocData.division := Group.division group;
              DocData.employees := filtered;
              DocData.responsibilityLine := line;
              DocData.processedData := processed |}
    | TypeError => TypeError
    end.
Proof.
  intros Hrp filtered line.
  destruct (responsiblePerson_found employeeData group rp Hrp) as (Hin & _).
  assert (Hmem : forall e,
    In e filtered <-> In e (Group.employees group) /\ employeeId e <> employeeId rp).
  { intros e. unfold filtered, filteredEmployees. simpl.
    rewrite filter_In, negb_true_iff.
    rewrite <- id_eqb_eq. destruct (id_eqb (employeeId e) (employeeId rp));
      intuition congruence. }
  split; [exact Hin|]. split; [reflexivity|]. split; [exact Hmem|]. split.
  { intros H. apply Hmem in H. destruct H as [_ H]. apply H; reflexivity. }
  split; [|split].
  - intros Hg. unfold line. simpl. rewrite (isFemale_test _ Hg). reflexivity.
  - intros Hg. unfold line. simpl.
    destruct (opt_eqb (gender rp) (Some FEMALE)) eqn:E; [|reflexivity].
    apply opt_eqb_eq in E. contradiction.
  - unfold setData. rewrite Hrp. simpl. fold filtered.
    destruct (processGroupData filtered); reflexivity.
Qed.

(** C8 (the code departs from the claim).  Two groups for which a
    responsible person is found.  In the first, the remaining member has the
    job title "toString": the resolver throws, the loop body hands nothing
    to the template, and the responsible person appears in no
    responsibilityLine (the defect of C7, met through the loop).  In the
    second, the responsible person has no job title: responsibilityLine is
    the honorific followed by the word "undefined", not by a job title,
    because the template literal prints the absent field, where the other
    uses of jobTitle in the file fall back to the empty string. *)
Theorem responsibility_line_not_as_claimed :
  (let group := {| Group.workLocation := Some (utf16 "Tribunal");
                   Group.division := Some (utf16 "Civil");
                   Group.city := Some (utf16 "Rabat");
                   Group.employees := [presidentOfTribunal;
                                       employeeNamed 1 "Ahmed" MALE "toString"] |} in
   responsiblePerson sampleRoster group = Ok (Some presidentOfTribunal) /\
   filteredEmployees (Group.employees group) (Some presidentOfTribunal) =
     [employeeNamed 1 "Ahmed" MALE "toString"] /\
   setData sampleRoster group = TypeError) /\
  (let group := {| Group.workLocation := Some (utf16 "Tribunal");
                   Group.division := Some (utf16 "Civil");
                   Group.city := Some (utf16 "Rabat");
                   Group.employees := [presidentWithoutTitle;
                                       employeeNamed 1 "Ahmed" MALE "قاضي"] |} in
   responsiblePerson [presidentWithoutTitle] group = Ok (Some presidentWithoutTitle) /\
   jobTitle presidentWithoutTitle = None /\
   exists d, setData [presidentWithoutTitle] group = Ok d /\
             DocData.employees d = [employeeNamed 1 "Ahmed" MALE "قاضي"] /\
             DocData.responsibilityLine d = utf16 "السيد undefined").
Proof.
  split.
  - repeat split; vm_compute; reflexivity.
  - split; [vm_compute; reflexivity|]. split; [reflexivity|].
    eexists; split; [vm_compute; reflexivity|]. split; reflexivity.
Qed.

(* ================================================================== *)
(** ** The title normalizer *)

Lemma isFeminineForm_find (title : jsstring) :
  find (isFeminineFormOf title) jobTitleGrammar = None -> ~ isFeminineForm title.
Proof.
  intros Hnone (k & g & Hin & Hform).
  pose proof (find_none _ _ Hnone _ Hin) as Hf.
  unfold isFeminineFormOf in Hf. simpl in Hf.
  rewrite !orb_false_iff in Hf. destruct Hf as [[H1 H2] H3].
  apply str_eqb_neq in H1, H2, H3. intuition congruence.
Qed.

Lemma find_isFeminineForm (title : jsstring) :
  ~ isFeminineForm title -> find (isFeminineFormOf title) jobTitleGrammar = None.
Proof.
  intros Hnot.
  destruct (find (isFeminineFormOf title) jobTitleGrammar) as [[k g]|] eqn:E;
    [|reflexivity].
  exfalso; apply Hnot. apply find_some in E. destruct E as [Hin Hf].
  exists k, g. split; [exact Hin|].
  unfold isFeminineFormOf in Hf. simpl in Hf.
  rewrite !orb_true_iff, !str_eqb_eq in Hf. tauto.
Qed.

(** C7 (the code departs from the claim).  The title "toStringة" is no
    dictionary key and no feminine form; its first token ends with the
    feminine marker, and the masculinized title "toString" is no dictionary
    key either, so the claim has the normalizer return the title unchanged.
    The code returns "toString", because the membership test
    [jobTitleGrammar[masculinizedTitle]] also sees the properties inherited
    from [Object.prototype]; the resolver then throws on that root.
    Likewise "قاضي$'ة", whose masculinized title "قاضي$'" is no key, is
    returned as the key "قاضي", because [replace] expands [$'] in its
    replacement text. *)
Theorem findMasculineRoot_not_unchanged :
  let title := utf16 "toStringة" in
  let title' := utf16 "قاضي$'ة" in
  (~ isKey title /\ ~ isFeminineForm title /\
   endsWith feminineMarker (firstToken title) = true /\
   masculinized title = utf16 "toString" /\ ~ isKey (masculinized title) /\
   findMasculineRoot title = utf16 "toString" /\
   findMasculineRoot title <> title /\
   processGroupData [employeeWithTitle title] = TypeError) /\
  (~ isKey title' /\ ~ isFeminineForm title' /\
   endsWith feminineMarker (firstToken title') = true /\
   masculinized title' = utf16 "قاضي$'" /\ ~ isKey (masculinized title') /\
   findMasculineRoot title' = utf16 "قاضي" /\
   findMasculineRoot title' <> title').
Proof.
  assert (K : forall t, assoc t jobTitleGrammar = None -> ~ isKey t).
  { intros t Ht [g Hg]. congruence. }
  split.
  - repeat split; try (vm_compute; reflexivity); try (vm_compute; discriminate).
    + apply K; vm_compute; reflexivity.
    + apply isFeminineForm_find; vm_compute; reflexivity.
    + apply K; vm_compute; reflexivity.
  - repeat split; try (vm_compute; reflexivity); try (vm_compute; discriminate).
    + apply K; vm_compute; reflexivity.
    + apply isFeminineForm_find; vm_compute; reflexivity.
    + apply K; vm_compute; reflexivity.
Qed.

(** *** String facts used by the normalizer laws *)

Lemma startsWith_app (p s : jsstring) : startsWith p (p ++ s) = true.
Proof.
  induction p as [|x p IH]; simpl; [reflexivity|].
  rewrite N.eqb_refl, IH. reflexivity.
Qed.

Lemma firstToken_split (s : jsstring) :
  s = firstToken s ++ skipn (length (firstToken s)) s.
Proof.
  induction s as [|c s IH]; simpl; [reflexivity|].
  destruct (c =? 32)%N; simpl; [reflexivity|]. f_equal; exact IH.
Qed.

Lemma firstToken_no_space (s : jsstring) : ~ In 32%N (firstToken s).
Proof.
  induction s as [|c s IH]; simpl; [tauto|].
  destruct (c =? 32)%N eqn:E; simpl; [tauto|].
  apply N.eqb_neq in E. intros [H | H]; [congruence | exact (IH H)].
Qed.

Lemma firstToken_rest (s : jsstring) :
  skipn (length (firstToken s)) s = [] \/
  exists r, skipn (length (firstToken s)) s = 32%N :: r.
Proof.
  induction s as [|c s IH]; simpl; [left; reflexivity|].
  destruct (c =? 32)%N eqn:E; simpl; [|exact IH].
  apply N.eqb_eq in E; subst c. right; eexists; reflexivity.
Qed.

Lemma firstToken_app (w r : jsstring) :
  ~ In 32%N w -> (r = [] \/ exists r', r = 32%N :: r') ->
  firstToken (w ++ r) = w /\ skipn (length w) (w ++ r) = r.
Proof.
  intros Hw Hr. induction w as [|c w IH]; simpl.
  - split; [|reflexivity]. destruct Hr as [-> | [r' ->]]; reflexivity.
  - destruct (c =? 32)%N eqn:E.
    + apply N.eqb_eq in E. exfalso; apply Hw; left; congruence.
    + destruct IH as [IH1 IH2]; [intros H; apply Hw; right; exact H|].
      rewrite IH1. split; [reflexivity | exact IH2].
Qed.

Lemma endsWith_last (c : N) (w : jsstring) :
  endsWith [c] w = true -> w = dropLast w ++ [c].
Proof.
  unfold endsWith, dropLast. simpl. intros H.
  destruct (rev w) as [|y x] eqn:E; [discriminate|].
  rewrite andb_true_r in H. apply N.eqb_eq in H; subst y.
  assert (Hw : w = rev x ++ [c]).
  { rewrite <- (rev_involutive w), E. reflexivity. }
  rewrite Hw at 2. rewrite removelast_last. exact Hw.
Qed.

Lemma In_dropLast (x : N) (l : jsstring) : In x (dropLast l) -> In x l.
Proof.
  unfold dropLast. induction l as [|a l IH]; simpl; [tauto|].
  destruct l as [|b l]; [simpl; tauto|].
  intros [H | H]; [left; exact H | right; exact (IH H)].
Qed.

Lemma getSubstitution_plain (matched before after repl : jsstring) :
  ~ In 36%N repl -> getSubstitution matched before after repl = repl.
Proof.
  induction repl as [|c r IH]; intros H; simpl; [reflexivity|].
  destruct (c =? 36)%N eqn:E.
  - apply N.eqb_eq in E. exfalso; apply H; left; congruence.
  - rewrite IH; [reflexivity | intros H'; apply H; right; exact H'].
Qed.

(** Replacing the first token by its stripped form yields [masculinized],
    provided the token contains no dollar sign. *)
Lemma replace_firstToken (title : jsstring) :
  ~ In 36%N (firstToken title) ->
  replace title (firstToken title) (dropLast (firstToken title)) = masculinized title.
Proof.
  intros H. unfold replace, masculinized.
  destruct title as [|c t]; [reflexivity|].
  unfold replace_from.
  assert (Hs : startsWith (firstToken (c :: t)) (c :: t) = true).
  { rewrite (firstToken_split (c :: t)) at 2. apply startsWith_app. }
  rewrite Hs. simpl rev. rewrite app_nil_l.
  rewrite getSubstitution_plain; [reflexivity|].
  intros H'; apply H, In_dropLast, H'.
Qed.

Lemma feminized_masculinized (title : jsstring) :
  endsWith feminineMarker (firstToken title) = true ->
  title = feminized (masculinized title).
Proof.
  intros H. apply endsWith_last in H.
  unfold feminized, masculinized.
  set (w := firstToken title) in *. set (r := skipn (length w) title).
  assert (Hw' : ~ In 32%N (dropLast w)).
  { intros Hin. apply (firstToken_no_space title). apply In_dropLast, Hin. }
  destruct (firstToken_app (dropLast w) r Hw' (firstToken_rest title)) as [-> ->].
  change feminineMarker with [1577%N].
  rewrite app_assoc, <- H. apply firstToken_split.
Qed.

(** *** The laws of the normalizer that hold *)

(** Applied to a dictionary key, the normalizer is the identity. *)
Lemma findMasculineRoot_key (title : jsstring) :
  isKey title -> findMasculineRoot title = title.
Proof.
  intros [g Hg]. destruct title as [|c t]; [vm_compute in Hg; discriminate|].
  unfold findMasculineRoot. rewrite (getProp_own _ _ _ Hg). reflexivity.
Qed.

(** Applied to a feminine singular, dual or plural form of an entry, it
    returns the key of that entry. *)
Lemma findMasculineRoot_feminine_form (key : jsstring) (g : Grammar.entry) :
  In (key, g) jobTitleGrammar ->
  findMasculineRoot (Grammar.s (Grammar.f g)) = key /\
  findMasculineRoot (Grammar.d (Grammar.f g)) = key /\
  findMasculineRoot (Grammar.p (Grammar.f g)) = key.
Proof.
  unfold jobTitleGrammar. simpl. intros H.
  repeat (destruct H as [H | H];
          [injection H as <- <-; repeat split; vm_compute; reflexivity|]).
  contradiction.
Qed.

(** Applied to a title whose first token ends with the feminine marker and
    whose masculinized form is a dictionary key, it returns that form. *)
Lemma findMasculineRoot_compound (title : jsstring) :
  endsWith feminineMarker (firstToken title) = true ->
  isKey (masculinized title) ->
  findMasculineRoot title = masculinized title.
Proof.
  intros Hend [g Hg].
  rewrite (feminized_masculinized title Hend) at 1.
  apply assoc_In in Hg. revert Hg. generalize (masculinized title) as root.
  intros root. unfold jobTitleGrammar. simpl. intros H.
  repeat (destruct H as [H | H];
          [injection H as <- _; vm_compute; reflexivity|]).
  contradiction.
Qed.

Lemma normalize_inherited (t : jsstring) : inherited t = true -> normalize t = t.
Proof.
  unfold inherited. intros H. apply existsb_exists in H.
  destruct H as (x & Hin & Hx). rewrite str_eqb_eq in Hx. subst x.
  unfold objectPrototype in Hin. simpl in Hin.
  repeat (destruct Hin as [<- | Hin]; [vm_compute; reflexivity|]).
  contradiction.
Qed.

(** The code agrees with the specification's normalizer on every title
    whose first token has no dollar sign and whose masculinized form does
    not name a property inherited from [Object.prototype]. *)
Lemma findMasculineRoot_normalize (title : jsstring) :
  ~ In 36%N (firstToken title) ->
  inherited (masculinized title) = false ->
  findMasculineRoot title = normalize title.
Proof.
  intros Hdollar Hinh.
  destruct title as [|c t]; [reflexivity|].
  set (title := c :: t) in *.
  unfold findMasculineRoot. fold title.
  unfold normalize, isKeyb, getProp.
  destruct (assoc title jobTitleGrammar) as [g|] eqn:Hg; [reflexivity|].
  destruct (inherited title) eqn:Ht.
  - cbn [truthy]. pose proof (normalize_inherited title Ht) as Hn.
    unfold normalize, isKeyb in Hn. rewrite Hg in Hn. symmetry; exact Hn.
  - cbn [truthy].
    destruct (find (isFeminineFormOf title) jobTitleGrammar) as [[k g]|];
      [reflexivity|].
    destruct (endsWith feminineMarker (firstToken title)); [|reflexivity].
    rewrite (replace_firstToken title Hdollar), Hinh.
    destruct (assoc (masculinized title) jobTitleGrammar); reflexivity.
Qed.

(* ================================================================== *)
(** ** When the resolver returns *)

(** [processGroupData] throws exactly on a non-empty group whose
    representative title resolves to a name inherited from
    [Object.prototype]; on every other group it returns a record. *)
Lemma processGroupData_throws (employees : list Employee) :
  processGroupData employees = TypeError <->
  employees <> [] /\
  getProp jobTitleGrammar (findMasculineRoot (representativeTitle employees)) = Inherited.
Proof.
  destruct employees as [|e0 rest].
  - split; [discriminate | intros [H _]; congruence].
  - simpl representativeTitle.
    destruct (getProp jobTitleGrammar
                (findMasculineRoot (trim (orElse (jobTitle e0) [])))) as [g| |] eqn:Hp.
    + assert (Hg : assoc (findMasculineRoot (trim (orElse (jobTitle e0) [])))
                         jobTitleGrammar = Some g).
      { unfold getProp in Hp.
        destruct (assoc _ jobTitleGrammar) as [g'|]; [congruence|].
        destruct (inherited _); discriminate. }
      destruct (processGroupData_in_dictionary e0 rest g Hg) as (r & Hr & _).
      simpl in Hr. rewrite Hr. split; [discriminate | intros [_ H]; discriminate].
    + split; [intros _; split; [discriminate | reflexivity]|]. intros _.
      unfold processGroupData. cbv beta iota. rewrite Hp. cbn [truthy readForm].
      set (n := length rest).
      change (length (e0 :: rest)) with (S n).
      destruct n as [|[|n]]; cbn [Nat.eqb Nat.ltb Nat.leb];
        repeat match goal with |- context [if ?c then _ else _] => destruct c end;
        reflexivity.
    + split; [|intros [_ H]; discriminate].
      unfold processGroupData. cbv beta iota. rewrite Hp. cbn [truthy].
      discriminate.
Qed.

Lemma processGroupData_returns (employees : list Employee) :
  inherited (findMasculineRoot (representativeTitle employees)) = false ->
  exists r, processGroupData employees = Ok r.
Proof.
  intros Hinh.
  destruct (processGroupData employees) as [r|] eqn:E; [exists r; reflexivity|].
  apply processGroupData_throws in E. destruct E as [_ E].
  unfold getProp in E. rewrite Hinh in E.
  destruct (assoc _ jobTitleGrammar); discriminate.
Qed.

(** ** What the resolver returns where it returns *)

(** For every group whose members' gender fields are all the male or the
    female sentinel and whose representative title does not resolve to an
    inherited name, the resolver returns a record, and its pronoun is
    selected by count and gender composition as C4 says. *)
Lemma computedVar_agreement (employees : list Employee) :
  Forall (fun e => isMale e \/ isFemale e) employees ->
  inherited (findMasculineRoot (representativeTitle employees)) = false ->
  exists r, processGroupData employees = Ok r /\
    (forall e, employees = [e] -> isMale e ->
       GroupData.computedVar r = concerned_m_s) /\
    (forall e, employees = [e] -> isFemale e ->
       GroupData.computedVar r = concerned_f_s) /\
    (forall a b, employees = [a; b] -> isMale a -> isMale b ->
       GroupData.computedVar r = concerned_m_d) /\
    (forall a b, employees = [a; b] -> isFemale a -> isFemale b ->
       GroupData.computedVar r = concerned_f_d) /\
    (forall a b, employees = [a; b] ->
       (isMale a /\ isFemale b) \/ (isFemale a /\ isMale b) ->
       GroupData.computedVar r = concerned_m_d) /\
    (2 < length employees -> Exists isMale employees ->
       GroupData.computedVar r = concerned_m_p) /\
    (2 < length employees -> Forall isFemale employees ->
       GroupData.computedVar r = concerned_f_p).
Proof.
  intros HF Hinh.
  destruct (processGroupData_returns employees Hinh) as [r Hr].
  exists r. split; [exact Hr|].
  exact (computedVar_of_record employees r HF Hr).
Qed.

(** For every group whose representative title does not resolve to an
    inherited name, the resolver returns a record, and its collective title
    has the structure that C6 describes. *)
Lemma collective_title_agreement (employees : list Employee) :
  inherited (findMasculineRoot (representativeTitle employees)) = false ->
  exists r, processGroupData employees = Ok r /\
    let males := malesOf employees in
    let females := femalesOf employees in
    let maleTitle := honorific MALE maleDual malePlural (length males)
                     ++ space ++ join connector (map (fun e => elementText (fullName e)) males) in
    let femaleTitle := honorific FEMALE femaleDual femalePlural (length females)
                     ++ space ++ join connector (map (fun e => elementText (fullName e)) females) in
    (males = [] -> females = [] -> GroupData.collective_title r = []) /\
    (males <> [] -> females = [] ->
       GroupData.collective_title r = preposition ++ maleTitle) /\
    (males = [] -> females <> [] ->
       GroupData.collective_title r = preposition ++ femaleTitle) /\
    (males <> [] -> females <> [] ->
       GroupData.collective_title r =
         (preposition ++ maleTitle) ++ (connector ++ femaleTitle)).
Proof.
  intros Hinh.
  destruct (processGroupData_returns employees Hinh) as [r Hr].
  exists r. split; [exact Hr|].
  exact (collective_title_of_record employees r Hr).
Qed.

(** For every group [l1 ++ e :: l2] in which the gender of [e] is neither
    sentinel and whose representative title does not resolve to an inherited
    name, the resolver returns a record in which [e] is counted, named and
    left out of the segments as C10 says. *)
Lemma unknown_gender_agreement (l1 l2 : list Employee) (e : Employee) :
  let employees := l1 ++ e :: l2 in
  let others := l1 ++ l2 in
  let name := fun x => elementText (fullName x) in
  gender e <> Some MALE -> gender e <> Some FEMALE ->
  inherited (findMasculineRoot (representativeTitle employees)) = false ->
  exists r, processGroupData employees = Ok r /\
    (length others = 1 -> GroupData.computedVar r = concerned_m_d) /\
    (1 < length others -> Exists isMale others ->
       GroupData.computedVar r = concerned_m_p) /\
    (1 < length others -> ~ Exists isMale others ->
       GroupData.computedVar r = concerned_f_p) /\
    (forall g,
       assoc (findMasculineRoot (representativeTitle employees)) jobTitleGrammar = Some g ->
       (length others = 1 -> GroupData.combinedJobTitle r = Grammar.d (Grammar.m g)) /\
       (1 < length others -> Exists isMale others ->
          GroupData.combinedJobTitle r = Grammar.p (Grammar.m g)) /\
       (1 < length others -> ~ Exists isMale others ->
          GroupData.combinedJobTitle r = Grammar.p (Grammar.f g)) /\
       (others = [] -> GroupData.combinedJobTitle r = Grammar.s (Grammar.f g))) /\
    GroupData.invitees_names r =
      join connector (map name l1 ++ name e :: map name l2) /\
    GroupData.maleCollectiveTitle r = maleSegment (malesOf others) /\
    GroupData.femaleCollectiveTitle r =
      femaleSegment (malesOf others) (femalesOf others) /\
    GroupData.collective_title r =
      maleSegment (malesOf others) ++ femaleSegment (malesOf others) (femalesOf others) /\
    (others = [] ->
       GroupData.computedVar r = concerned_f_s /\ GroupData.collective_title r = []).
Proof.
  intros employees others name Hm Hf Hinh.
  destruct (processGroupData_returns employees Hinh) as [r Hr].
  exists r. split; [exact Hr|].
  exact (unknown_gender_member_of_record l1 l2 e r Hm Hf Hr).
Qed.

(* ================================================================== *)
(** * Further properties of the code *)

(** ** Substring search and trimming *)

Lemma startsWith_iff (p s : jsstring) :
  startsWith p s = true <-> exists b, s = p ++ b.
Proof.
  revert s; induction p as [|x p IH]; intros s; simpl.
  - split; [intros _; exists s; reflexivity | reflexivity].
  - destruct s as [|y s]; [split; [discriminate | intros [b H]; discriminate]|].
    rewrite andb_true_iff, N.eqb_eq, IH. split.
    + intros [-> [b ->]]. exists b; reflexivity.
    + intros [b H]. injection H as -> ->. split; [reflexivity | exists b; reflexivity].
Qed.

Lemma includes_iff (p s : jsstring) :
  includes p s = true <-> exists a b, s = a ++ p ++ b.
Proof.
  induction s as [|y s IH]; simpl; rewrite orb_true_iff, startsWith_iff.
  - split.
    + intros [[b H] | H]; [|discriminate]. exists [], b; exact H.
    + intros (a & b & H). left. destruct a; [exists b; exact H|discriminate].
  - rewrite IH. split.
    + intros [[b H] | (a & b & H)].
      * exists [], b; exact H.
      * exists (y :: a), b. rewrite H; reflexivity.
    + intros (a & b & H). destruct a as [|z a].
      * left; exists b; exact H.
      * right. injection H as _ H. exists a, b; exact H.
Qed.

Lemma includes_rev (p s : jsstring) :
  includes (rev p) (rev s) = true <-> includes p s = true.
Proof.
  rewrite !includes_iff. split; intros (a & b & H).
  - exists (rev b), (rev a).
    rewrite <- (rev_involutive s), H, !rev_app_distr, rev_involutive, app_assoc.
    reflexivity.
  - exists (rev b), (rev a). rewrite H, !rev_app_distr, app_assoc. reflexivity.
Qed.

Lemma includes_longer (p q s : jsstring) :
  includes (p ++ q) s = true -> includes p s = true.
Proof.
  rewrite !includes_iff. intros (a & b & H).
  exists a, (q ++ b). rewrite H, <- app_assoc. reflexivity.
Qed.

(** White space in front of a text hides no occurrence of a word that does
    not start with white space. *)
Lemma includes_trimStart (c : N) (k s : jsstring) :
  isWhiteSpace c = false ->
  includes (c :: k) (trimStart s) = includes (c :: k) s.
Proof.
  intros Hc. induction s as [|x s IH]; [reflexivity|].
  simpl trimStart. destruct (isWhiteSpace x) eqn:Hx; [|reflexivity].
  rewrite IH. simpl.
  destruct (c =? x)%N eqn:E; [|reflexivity].
  apply N.eqb_eq in E; subst x; congruence.
Qed.

Lemma includes_trim (kw s : jsstring) (c c' : N) (k k' : jsstring) :
  kw = c :: k -> rev kw = c' :: k' ->
  isWhiteSpace c = false -> isWhiteSpace c' = false ->
  (includes kw (trim s) = true <-> includes kw s = true).
Proof.
  intros Hkw Hrev Hc Hc'. unfold trim, trimEnd.
  rewrite <- (rev_involutive kw) at 1. rewrite includes_rev.
  rewrite Hrev, (includes_trimStart c' k' _ Hc'), <- Hrev.
  rewrite includes_rev, Hkw, (includes_trimStart c k _ Hc). reflexivity.
Qed.

(** ** Responsible persons *)

Lemma isResponsible_some (e : Employee) (c : N) (pr : jsstring) :
  postResponsibility e = Some (c :: pr) ->
  isResponsible e =
    (includes kw_rais (trim (c :: pr)) || includes kw_raisa (trim (c :: pr))
     || includes kw_wakil (trim (c :: pr)) || includes kw_wakila (trim (c :: pr))).
Proof. unfold isResponsible. intros ->. reflexivity. Qed.

(** X1.  [isResponsible] holds exactly when the postResponsibility text is
    present and contains the word "رئيس" or the word "وكيل": the two
    feminine keywords add nothing, and the trimming does not matter. *)
Theorem isResponsible_two_keywords (e : Employee) :
  isResponsible e = true <->
  exists pr, postResponsibility e = Some pr /\
             (includes kw_rais pr = true \/ includes kw_wakil pr = true).
Proof.
  assert (Hr : forall s, includes kw_rais (trim s) = true <-> includes kw_rais s = true).
  { intros s. eapply includes_trim; reflexivity. }
  assert (Hw : forall s, includes kw_wakil (trim s) = true <-> includes kw_wakil s = true).
  { intros s. eapply includes_trim; reflexivity. }
  destruct (postResponsibility e) as [[|c pr]|] eqn:E.
  - unfold isResponsible; rewrite E. split; [discriminate|].
    intros (pr & H & [H' | H']); injection H as <-; vm_compute in H'; discriminate.
  - rewrite (isResponsible_some e c pr E), !orb_true_iff. split.
    + intros H. exists (c :: pr). split; [reflexivity|].
      destruct H as [[[H | H] | H] | H].
      * left; apply Hr, H.
      * left; apply Hr. apply (includes_longer kw_rais [1577%N]). exact H.
      * right; apply Hw, H.
      * right; apply Hw. apply (includes_longer kw_wakil [1577%N]). exact H.
    + intros (pr' & H & H'). injection H as <-.
      destruct H' as [H' | H'].
      * left; left; left; apply Hr, H'.
      * left; right; apply Hw, H'.
  - unfold isResponsible; rewrite E. split; [discriminate|].
    intros (pr & H & _); discriminate.
Qed.

(** For a group with a first member, the lookup does not throw and is a
    plain search of the roster. *)
Lemma responsiblePerson_find (employeeData : list Employee) (group : Group.t)
    (e0 : Employee) (rest : list Employee) :
  Group.employees group = e0 :: rest ->
  responsiblePerson employeeData group =
    Ok (find (responsibleFor group e0) employeeData).
Proof.
  intros Hg. unfold responsiblePerson, responsibleFor. rewrite Hg.
  induction employeeData as [|x l IH]; [reflexivity|]. simpl.
  destruct (opt_eqb (workLocation x) (Group.workLocation group)); simpl;
    [|exact IH].
  destruct (opt_eqb (division x) (Group.division group)); simpl; [|exact IH].
  destruct (opt_eqb (city x) (city e0)); simpl; [|exact IH].
  destruct (isResponsible x); simpl; [reflexivity | exact IH].
Qed.

Lemma find_first {A : Type} (f : A -> bool) (l : list A) (x : A) :
  find f l = Some x <->
  exists l1 l2, l = l1 ++ x :: l2 /\ f x = true /\ forall y, In y l1 -> f y = false.
Proof.
  induction l as [|a l IH]; simpl.
  - split; [discriminate | intros (l1 & l2 & H & _); destruct l1; discriminate].
  - destruct (f a) eqn:E.
    + split.
      * intros [= ->]. exists [], l. repeat split; [exact E | intros y []].
      * intros (l1 & l2 & H & Hx & Hl1). destruct l1 as [|b l1].
        -- injection H as -> _. reflexivity.
        -- injection H as -> _. rewrite (Hl1 b (or_introl eq_refl)) in E. discriminate.
    + rewrite IH. split.
      * intros (l1 & l2 & -> & Hx & Hl1). exists (a :: l1), l2.
        repeat split; [exact Hx|]. intros y [<- | Hy]; [exact E | exact (Hl1 y Hy)].
      * intros (l1 & l2 & H & Hx & Hl1). destruct l1 as [|b l1].
        -- injection H as -> _. congruence.
        -- injection H as -> ->. exists l1, l2. repeat split; [exact Hx|].
           intros y Hy. apply Hl1. right; exact Hy.
Qed.

(** X2.  For a group with at least one member the lookup of the responsible
    person never throws.  It returns the first roster record, in roster
    order, whose workLocation and division are the group's, whose city is
    that of the group's first member and which [isResponsible]; it returns
    nothing exactly when the roster has no such record. *)
Theorem responsiblePerson_first_match (employeeData : list Employee)
    (group : Group.t) (e0 : Employee) (rest : list Employee) :
  Group.employees group = e0 :: rest ->
  (exists found, responsiblePerson employeeData group = Ok found) /\
  (forall rp, responsiblePerson employeeData group = Ok (Some rp) <->
     exists before after, employeeData = before ++ rp :: after /\
       responsibleFor group e0 rp = true /\
       forall x, In x before -> responsibleFor group e0 x = false) /\
  (responsiblePerson employeeData group = Ok None <->
     forall x, In x employeeData -> responsibleFor group e0 x = false).
Proof.
  intros Hg. rewrite (responsiblePerson_find employeeData group e0 rest Hg).
  split; [eexists; reflexivity|]. split.
  - intros rp. rewrite <- find_first. split; congruence.
  - split.
    + intros [= H] x Hx. exact (find_none _ _ H x Hx).
    + intros H. destruct (find (responsibleFor group e0) employeeData) as [x|] eqn:E;
        [|reflexivity].
      apply find_some in E. destruct E as [Hin Hx].
      rewrite (H x Hin) in Hx. discriminate.
Qed.

Lemma responsiblePerson_first_match_witness :
  exists before after,
    sampleRoster = before ++ presidentOfTribunal :: after /\
    forall x, In x before ->
      responsibleFor tribunalGroup (employeeNamed 1 "Ahmed" MALE "قاضي") x = false.
Proof.
  destruct (responsiblePerson_first_match sampleRoster tribunalGroup
              (employeeNamed 1 "Ahmed" MALE "قاضي")
              [presidentOfTribunal; employeeNamed 2 "Sara" FEMALE "قاضية"]
              eq_refl) as (_ & H & _).
  destruct (proj1 (H presidentOfTribunal)) as (before & after & E & _ & Hb);
    [vm_compute; reflexivity|].
  exists before, after. split; assumption.
Defined.

(** X3.  When a group has no responsible person, responsibilityLine is
    empty and the document lists the group's members in order except those
    whose employeeId is [null]: the filter compares every identifier with
    the [null] that stands for the missing person. *)
Theorem no_responsible_person (employeeData : list Employee) (group : Group.t)
    (d : DocData.t) :
  responsiblePerson employeeData group = Ok None ->
  setData employeeData group = Ok d ->
  DocData.responsibilityLine d = [] /\
  DocData.employees d =
    filter (fun e => negb (id_eqb (employeeId e) IdNull)) (Group.employees group) /\
  (forall e, In e (DocData.employees d) <->
             In e (Group.employees group) /\ employeeId e <> IdNull).
Proof.
  intros Hrp Hd. unfold setData in Hd. rewrite Hrp in Hd. simpl in Hd.
  destruct (processGroupData (filteredEmployees (Group.employees group) None))
    as [processed|]; simpl in Hd; [|discriminate].
  injection Hd as <-. simpl. split; [reflexivity|]. split; [reflexivity|].
  intros e. unfold filteredEmployees. simpl.
  rewrite filter_In, negb_true_iff, <- id_eqb_eq.
  destruct (id_eqb (employeeId e) IdNull); intuition congruence.
Qed.

Lemma no_responsible_person_witness :
  let ahmed := employeeNamed 1 "Ahmed" MALE "قاضي" in
  let group := {| Group.workLocation := Some (utf16 "Tribunal");
                  Group.division := Some (utf16 "Civil");
                  Group.city := Some (utf16 "Rabat");
                  Group.employees := [employeeWithNullId; ahmed] |} in
  exists d, setData [ahmed; employeeWithNullId] group = Ok d /\
            DocData.employees d = [ahmed] /\ DocData.responsibilityLine d = [].
Proof.
  intros ahmed group.
  assert (Hd : exists d, setData [ahmed; employeeWithNullId] group = Ok d)
    by (eexists; vm_compute; reflexivity).
  destruct Hd as [d Hd]. exists d. split; [exact Hd|].
  destruct (no_responsible_person [ahmed; employeeWithNullId] group d) as (Hl & He & _);
    [vm_compute; reflexivity | exact Hd |].
  split; [rewrite He; vm_compute; reflexivity | exact Hl].
Defined.

(** ** More on the partition into groups *)

Lemma allMembers_setProp_push (key : jsstring) (emp : Employee) (g : Group.t)
    (acc : list (jsstring * Group.t)) :
  assoc key acc = Some g ->
  Permutation (allMembers (setProp key (push emp g) acc)) (emp :: allMembers acc).
Proof.
  unfold allMembers.
  induction acc as [|[k' a'] acc IH]; simpl; [discriminate|].
  destruct (str_eqb k' key) eqn:E; simpl.
  - intros [= ->]. rewrite <- app_assoc. simpl.
    symmetry. apply Permutation_middle.
  - intros H. specialize (IH H).
    rewrite (Permutation_app_head _ IH). symmetry. apply Permutation_middle.
Qed.

Lemma allMembers_setProp_new (key : jsstring) (g : Group.t)
    (acc : list (jsstring * Group.t)) :
  assoc key acc = None ->
  allMembers (setProp key g acc) = allMembers acc ++ Group.employees g.
Proof.
  unfold allMembers.
  induction acc as [|[k' a'] acc IH]; simpl; [intros _; apply app_nil_r|].
  destruct (str_eqb k' key); [discriminate|]. simpl.
  intros H. rewrite (IH H), app_assoc. reflexivity.
Qed.

Lemma groupStep_members (acc acc' : list (jsstring * Group.t)) (emp : Employee) :
  groupStep acc emp = Ok acc' ->
  Permutation (allMembers acc') (emp :: allMembers acc).
Proof.
  unfold groupStep. set (key := groupKey emp).
  destruct (assoc key acc) as [g|] eqn:Hg.
  - rewrite (getProp_own _ _ _ Hg). simpl. rewrite (getProp_own _ _ _ Hg).
    intros [= <-]. apply allMembers_setProp_push, Hg.
  - destruct (inherited key) eqn:Hi.
    + rewrite (getProp_inherited _ _ Hg Hi). simpl.
      rewrite (getProp_inherited _ _ Hg Hi). discriminate.
    + rewrite (getProp_undefined _ _ Hg Hi). simpl.
      rewrite (getProp_own _ _ _ (assoc_setProp_same key _ acc)).
      intros [= <-].
      rewrite (allMembers_setProp_push key emp _ _ (assoc_setProp_same key _ acc)).
      rewrite (allMembers_setProp_new key _ acc Hg). simpl.
      rewrite app_nil_r. reflexivity.
Qed.

Lemma reduce_groupStep_members (l : list Employee) :
  forall acc groups, reduce groupStep l acc = Ok groups ->
    Permutation (allMembers groups) (allMembers acc ++ l).
Proof.
  induction l as [|emp l IH]; intros acc groups; simpl.
  - intros [= <-]. rewrite app_nil_r. reflexivity.
  - destruct (groupStep acc emp) as [acc'|] eqn:Hs; simpl; [|discriminate].
    intros H. rewrite (IH acc' groups H), (groupStep_members acc acc' emp Hs).
    simpl. apply Permutation_middle.
Qed.

(** X4.  The grouping loses and duplicates nobody: whenever it completes,
    the members of the groups, taken group after group, are a rearrangement
    of the invited list (with the same multiplicities). *)
Theorem groupedEmployees_rearranges (invitedList : list Employee)
    (groups : list (jsstring * Group.t)) :
  groupedEmployees invitedList = Ok groups ->
  Permutation (allMembers groups) invitedList.
Proof.
  intros H. exact (reduce_groupStep_members invitedList [] groups H).
Qed.

Lemma groupedEmployees_rearranges_witness :
  let a := employeeAt 1 "Ahmed" "Tribunal" "Civil" "Rabat" in
  let b := employeeAt 2 "Omar" "Tribunal" "Penal" "Rabat" in
  let c := employeeAt 3 "Ali" "Tribunal" "Civil" "Rabat" in
  exists groups, groupedEmployees [a; b; c] = Ok groups /\
                 allMembers groups = [a; c; b] /\
                 Permutation (allMembers groups) [a; b; c].
Proof.
  intros a b c.
  assert (H : exists groups, groupedEmployees [a; b; c] = Ok groups
                             /\ allMembers groups = [a; c; b])
    by (eexists; split; vm_compute; reflexivity).
  destruct H as (groups & Hg & Hm). exists groups.
  split; [exact Hg|]. split; [exact Hm|].
  exact (groupedEmployees_rearranges [a; b; c] groups Hg).
Defined.

Lemma assoc_keys {A : Type} (k : jsstring) (o : list (jsstring * A)) :
  existsb (str_eqb k) (map fst o) = match assoc k o with Some _ => true | None => false end.
Proof.
  induction o as [|[k' a] o IH]; simpl; [reflexivity|].
  rewrite (str_eqb_sym k k'). destruct (str_eqb k' k); simpl; [reflexivity | exact IH].
Qed.

Lemma reduce_groupStep_keys (l : list Employee) :
  forall acc, wellGrouped acc ->
    (forall e, In e l -> inherited (groupKey e) = false) ->
    exists groups, reduce groupStep l acc = Ok groups /\
      map fst groups = map fst acc ++ firstSeen (map fst acc) (map groupKey l).
Proof.
  induction l as [|emp l IH]; intros acc WG Hinh; simpl.
  - exists acc; split; [reflexivity | symmetry; apply app_nil_r].
  - destruct (groupStep_appends acc emp WG (Hinh emp (or_introl eq_refl)))
      as (acc' & Hstep & WG' & _ & Hkeys).
    rewrite Hstep; simpl.
    destruct (IH acc' WG' (fun e H => Hinh e (or_intror H))) as (groups & Hred & Hk).
    exists groups; split; [exact Hred|].
    rewrite Hk, Hkeys, assoc_keys.
    destruct (assoc (groupKey emp) acc); [reflexivity|].
    rewrite <- app_assoc. reflexivity.
Qed.

Lemma groupedEmployees_no_inherited_key (invitedList : list Employee)
    (groups : list (jsstring * Group.t)) :
  groupedEmployees invitedList = Ok groups ->
  forall e, In e invitedList -> inherited (groupKey e) = false.
Proof.
  intros H e Hin. destruct (inherited (groupKey e)) eqn:Hi; [|reflexivity].
  unfold groupedEmployees in H.
  rewrite (reduce_groupStep_throws invitedList [] wellGrouped_nil) in H;
    [discriminate|].
  apply Exists_exists. exists e; split; assumption.
Qed.

(** X5.  The groups are enumerated in the order in which their keys first
    appear in the invited list, one group per distinct key. *)
Theorem groupedEmployees_first_seen_order (invitedList : list Employee)
    (groups : list (jsstring * Group.t)) :
  groupedEmployees invitedList = Ok groups ->
  map fst groups = firstSeen [] (map groupKey invitedList) /\
  NoDup (map fst groups).
Proof.
  intros H.
  pose proof (groupedEmployees_no_inherited_key invitedList groups H) as Hinh.
  destruct (reduce_groupStep_keys invitedList [] wellGrouped_nil Hinh)
    as (groups' & Hg & Hk).
  unfold groupedEmployees in H. rewrite H in Hg. injection Hg as <-.
  split; [exact Hk|].
  destruct (groupedEmployees_partition invitedList groups H) as [WG _].
  exact (wg_keys _ WG).
Qed.

Lemma groupedEmployees_first_seen_order_witness :
  let a := employeeAt 1 "Ahmed" "Tribunal" "Civil" "Rabat" in
  let b := employeeAt 2 "Omar" "Tribunal" "Penal" "Rabat" in
  let c := employeeAt 3 "Ali" "Tribunal" "Civil" "Rabat" in
  exists groups, groupedEmployees [a; b; c] = Ok groups /\
    map fst groups = [utf16 "Tribunal_Civil_Rabat"; utf16 "Tribunal_Penal_Rabat"].
Proof.
  intros a b c.
  assert (H : exists groups, groupedEmployees [a; b; c] = Ok groups)
    by (eexists; vm_compute; reflexivity).
  destruct H as (groups & Hg). exists groups. split; [exact Hg|].
  destruct (groupedEmployees_first_seen_order [a; b; c] groups Hg) as [-> _].
  vm_compute; reflexivity.
Defined.

(** A listed group and the invited employees with its key. *)
Lemma groupedEmployees_head (invitedList : list Employee)
    (groups : list (jsstring * Group.t)) (k : jsstring) (g : Group.t) :
  groupedEmployees invitedList = Ok groups ->
  In (k, g) groups ->
  exists e0 rest,
    withKey k invitedList = e0 :: rest /\
    Group.employees g = e0 :: rest /\
    Group.workLocation g = workLocation e0 /\
    Group.division g = division e0 /\
    Group.city g = city e0.
Proof.
  intros H Hin.
  destruct (groupedEmployees_partition invitedList groups H) as [WG Hm].
  pose proof (In_assoc k g groups (wg_keys _ WG) Hin) as Hg.
  destruct (wg_head _ WG k g Hg) as (e0 & rest & He & Hw & Hd & Hc & _).
  exists e0, rest. repeat split; try assumption.
  rewrite <- Hm. unfold membersAt. rewrite Hg. exact He.
Qed.

(** X6.  Every group has at least one member; its members are the invited
    employees with its key, in invited order, and its workLocation, division
    and city are those of the first of them. *)
Theorem groups_labelled_by_first_member (invitedList : list Employee)
    (groups : list (jsstring * Group.t)) :
  groupedEmployees invitedList = Ok groups ->
  Forall (fun kg =>
    exists e0 rest,
      withKey (fst kg) invitedList = e0 :: rest /\
      Group.employees (snd kg) = e0 :: rest /\
      Group.workLocation (snd kg) = workLocation e0 /\
      Group.division (snd kg) = division e0 /\
      Group.city (snd kg) = city e0) groups.
Proof.
  intros H. apply Forall_forall. intros [k g] Hin.
  exact (groupedEmployees_head invitedList groups k g H Hin).
Qed.

Lemma groups_labelled_by_first_member_witness :
  let a := employeeAt 1 "Ahmed" "TPI_Rabat" "Civil" "Rabat" in
  let b := employeeAt 2 "Omar" "TPI" "Rabat_Civil" "Rabat" in
  exists g, groupedEmployees [a; b] = Ok [(utf16 "TPI_Rabat_Civil_Rabat", g)] /\
            Group.employees g = [a; b] /\
            Group.workLocation g = workLocation a.
Proof.
  intros a b.
  assert (H : exists g, groupedEmployees [a; b] = Ok [(utf16 "TPI_Rabat_Civil_Rabat", g)]
                        /\ Group.employees g = [a; b])
    by (eexists; split; vm_compute; reflexivity).
  destruct H as (g & Hg & He). exists g. split; [exact Hg|]. split; [exact He|].
  pose proof (groups_labelled_by_first_member [a; b] _ Hg) as HF.
  inversion HF as [|? ? (e0 & rest & _ & He' & Hw & _) _]; subst.
  simpl in He', Hw. rewrite He in He'. injection He' as <- _. exact Hw.
Defined.

(** X7.  The grouping throws exactly when the key of some invited employee
    is the name of a property that objects inherit (a key such as
    [__proto__], which the work location "_", the division "proto" and the
    city "_" produce); it then yields no group at all. *)
Theorem groupedEmployees_throws_iff (invitedList : list Employee) :
  groupedEmployees invitedList = TypeError <->
  Exists (fun e => inherited (groupKey e) = true) invitedList.
Proof.
  split.
  - intros H.
    destruct (Forall_Exists_dec (fun e => inherited (groupKey e) = false)
                (fun e => bool_dec (inherited (groupKey e)) false) invitedList)
      as [Hall | Hex].
    + rewrite Forall_forall in Hall.
      destruct (groupedEmployees_returns invitedList Hall) as (groups & Hg & _).
      congruence.
    + apply Exists_exists in Hex. destruct Hex as (e & Hin & Hne).
      apply Exists_exists. exists e; split; [exact Hin|].
      destruct (inherited (groupKey e)); congruence.
  - intros Hex. exact (reduce_groupStep_throws invitedList [] wellGrouped_nil Hex).
Qed.

(** A group key that names an inherited property. *)
Example proto_key_throws :
  groupKey (employeeAt 1 "Ahmed" "_" "proto" "_") = utf16 "__proto__" /\
  groupedEmployees [employeeAt 1 "Ahmed" "_" "proto" "_"] = TypeError.
Proof. split; vm_compute; reflexivity. Qed.

(** ** A generation pass *)

Lemma forIn_Forall2 {A B : Type} (f : A -> result B) (o : list (jsstring * A))
    (bs : list B) :
  forIn f o = Ok bs -> Forall2 (fun kg b => f (snd kg) = Ok b) o bs.
Proof.
  revert bs; induction o as [|[k a] o IH]; intros bs; simpl.
  - intros [= <-]. constructor.
  - destruct (f a) as [b|] eqn:E; simpl; [|discriminate].
    destruct (forIn f o) as [bs'|]; simpl; [|discriminate].
    intros [= <-]. constructor; [exact E | apply IH; reflexivity].
Qed.

Lemma Forall2_impl_In {A B : Type} (R S : A -> B -> Prop) (l : list A) (l' : list B) :
  (forall a b, In a l -> R a b -> S a b) -> Forall2 R l l' -> Forall2 S l l'.
Proof.
  intros H HF. induction HF as [|a b l l' Hab HF IH]; constructor.
  - apply H; [left; reflexivity | exact Hab].
  - apply IH. intros a' b' Hin. apply H. right; exact Hin.
Qed.

Lemma setData_documentOf (employeeData invitedList : list Employee)
    (groups : list (jsstring * Group.t)) (kg : jsstring * Group.t) (d : DocData.t) :
  groupedEmployees invitedList = Ok groups ->
  In kg groups ->
  setData employeeData (snd kg) = Ok d ->
  documentOf employeeData invitedList kg d.
Proof.
  intros Hg Hin Hd. destruct kg as [k g]. simpl in Hd.
  destruct (groupedEmployees_head invitedList groups k g Hg Hin)
    as (e0 & rest & Hk & He & Hw & Hdv & _).
  exists e0, rest. split; [exact Hk|]. simpl.
  unfold setData in Hd.
  rewrite (responsiblePerson_find employeeData g e0 rest He) in Hd. simpl in Hd.
  rewrite He in Hd.
  destruct (processGroupData _) as [processed|] eqn:Hp; simpl in Hd; [|discriminate].
  injection Hd as <-. simpl. repeat split; assumption.
Qed.

(** X8.  A pass that completes yields one document per group, in group
    order.  The document of a group takes workLocation and division from the
    first invited employee with the group's key; its responsible person is
    the first roster record matching that group; its members are the invited
    employees with the key, in invited order, without those carrying the
    identifier of the responsible person; and its text fields are what the
    resolver returns for these members. *)
Theorem generate_documents (employeeData invitedList : list Employee)
    (docs : list DocData.t) :
  generate employeeData invitedList = Ok docs ->
  exists groups, groupedEmployees invitedList = Ok groups /\
    Forall2 (documentOf employeeData invitedList) groups docs.
Proof.
  unfold generate. intros H.
  destruct (groupedEmployees invitedList) as [groups|] eqn:Hg; simpl in H;
    [|discriminate].
  exists groups; split; [reflexivity|].
  apply forIn_Forall2 in H.
  apply (Forall2_impl_In _ _ _ _
           (fun kg d Hin => setData_documentOf employeeData invitedList groups kg d Hg Hin) H).
Qed.

Lemma generate_documents_witness :
  let ahmed := employeeNamed 1 "Ahmed" MALE "قاضي" in
  let sara := employeeNamed 2 "Sara" FEMALE "قاضية" in
  exists docs groups,
    generate sampleRoster [ahmed; presidentOfTribunal; sara] = Ok docs /\
    groupedEmployees [ahmed; presidentOfTribunal; sara] = Ok groups /\
    Forall2 (documentOf sampleRoster [ahmed; presidentOfTribunal; sara]) groups docs.
Proof.
  intros ahmed sara.
  assert (H : exists docs, generate sampleRoster [ahmed; presidentOfTribunal; sara] = Ok docs)
    by (eexists; vm_compute; reflexivity).
  destruct H as (docs & Hd).
  destruct (generate_documents sampleRoster _ docs Hd) as (groups & Hg & HF).
  exists docs, groups. repeat split; assumption.
Defined.

Lemma forIn_returns {A B : Type} (f : A -> result B) (o : list (jsstring * A)) :
  (forall kg, In kg o -> exists b, f (snd kg) = Ok b) ->
  exists bs, forIn f o = Ok bs /\ length bs = length o.
Proof.
  induction o as [|[k a] o IH]; intros H; simpl.
  - exists []; split; reflexivity.
  - destruct (H (k, a) (or_introl eq_refl)) as [b Hb]. simpl in Hb. rewrite Hb.
    destruct IH as (bs & Hbs & Hlen); [intros kg Hin; apply H; right; exact Hin|].
    rewrite Hbs. simpl. exists (b :: bs); split; [reflexivity | simpl; congruence].
Qed.

Lemma setData_returns (employeeData : list Employee) (group : Group.t)
    (e0 : Employee) (rest : list Employee) :
  Group.employees group = e0 :: rest ->
  (forall e, In e (e0 :: rest) ->
     inherited (findMasculineRoot (trim (orElse (jobTitle e) []))) = false) ->
  exists d, setData employeeData group = Ok d.
Proof.
  intros He Htitles. unfold setData.
  rewrite (responsiblePerson_find employeeData group e0 rest He). simpl.
  rewrite He.
  set (rp := find (responsibleFor group e0) employeeData).
  destruct (processGroupData_returns (filteredEmployees (e0 :: rest) rp)) as [r Hr].
  - destruct (filteredEmployees (e0 :: rest) rp) as [|x l] eqn:E; [reflexivity|].
    simpl. apply Htitles.
    assert (Hx : In x (filteredEmployees (e0 :: rest) rp)) by (rewrite E; left; reflexivity).
    unfold filteredEmployees in Hx. apply filter_In in Hx. exact (proj1 Hx).
  - rewrite Hr. simpl. eexists; reflexivity.
Qed.

(** X9.  A pass completes, with one document per distinct key, whenever no
    invited employee has a key that names an inherited property and no
    invited employee has a job title that resolves to such a name. *)
Theorem generate_completes (employeeData invitedList : list Employee) :
  (forall e, In e invitedList -> inherited (groupKey e) = false) ->
  (forall e, In e invitedList ->
     inherited (findMasculineRoot (trim (orElse (jobTitle e) []))) = false) ->
  exists docs, generate employeeData invitedList = Ok docs /\
    length docs = length (firstSeen [] (map groupKey invitedList)).
Proof.
  intros Hkeys Htitles.
  destruct (reduce_groupStep_keys invitedList [] wellGrouped_nil Hkeys)
    as (groups & Hg & Hk).
  change (reduce groupStep invitedList []) with (groupedEmployees invitedList) in Hg.
  unfold generate. rewrite Hg. simpl.
  destruct (forIn_returns (setData employeeData) groups) as (docs & Hd & Hlen).
  - intros [k g] Hin. simpl.
    destruct (groupedEmployees_head invitedList groups k g Hg Hin)
      as (e0 & rest & Hw & He & _).
    apply (setData_returns employeeData g e0 rest He).
    intros e Hin'. apply Htitles.
    rewrite <- Hw in Hin'. unfold withKey in Hin'. apply filter_In in Hin'.
    exact (proj1 Hin').
  - exists docs. split; [exact Hd|].
    rewrite Hlen, <- (length_map fst groups), Hk. reflexivity.
Qed.

Lemma generate_completes_witness :
  let ahmed := employeeNamed 1 "Ahmed" MALE "قاضي" in
  let omar := employeeAt 2 "Omar" "Tribunal" "Penal" "Rabat" in
  exists docs, generate sampleRoster [ahmed; omar; presidentOfTribunal] = Ok docs /\
               length docs = 2.
Proof.
  intros ahmed omar.
  apply (generate_completes sampleRoster [ahmed; omar; presidentOfTribunal]).
  - intros e [<- | [<- | [<- | []]]]; vm_compute; reflexivity.
  - intros e [<- | [<- | [<- | []]]]; vm_compute; reflexivity.
Defined.

(** ** The click on the generate button *)

Lemma produce_prefix (renders : DocData.t -> bool) (employeeData : list Employee)
    (groups : list (jsstring * Group.t)) :
  forall docs completed,
    produce renders employeeData groups = (docs, completed) ->
    forIn (setData employeeData) (firstn (length docs) groups) = Ok docs /\
    forallb renders docs = true /\
    (completed = true -> length docs = length groups) /\
    (completed = false ->
       exists k g, nth_error groups (length docs) = Some (k, g) /\
         match setData employeeData g with
         | Ok d => renders d = false
         | TypeError => True
         end).
Proof.
  induction groups as [|[k g] groups IH]; intros docs completed; simpl.
  - intros [= <- <-]. repeat split; try reflexivity. discriminate.
  - destruct (setData employeeData g) as [d|] eqn:Hd.
    + destruct (renders d) eqn:Hr.
      * destruct (produce renders employeeData groups) as [ds c] eqn:Hp.
        intros [= <- <-]. destruct (IH ds c eq_refl) as (H1 & H2 & H3 & H4).
        simpl. rewrite Hd, H1, Hr, H2. simpl.
        repeat split; [intros Hc; f_equal; exact (H3 Hc) | exact H4].
      * intros [= <- <-]. simpl. repeat split; [discriminate|].
        intros _. exists k, g. split; [reflexivity|]. rewrite Hd. exact Hr.
    + intros [= <- <-]. simpl. repeat split; [discriminate|].
      intros _. exists k, g. split; [reflexivity|]. rewrite Hd. exact I.
Qed.

Lemma produce_all (renders : DocData.t -> bool) (employeeData : list Employee)
    (groups : list (jsstring * Group.t)) :
  forall docs, forIn (setData employeeData) groups = Ok docs ->
    forallb renders docs = true ->
    produce renders employeeData groups = (docs, true).
Proof.
  induction groups as [|[k g] groups IH]; intros docs; simpl.
  - intros [= <-] _. reflexivity.
  - destruct (setData employeeData g) as [d|]; simpl; [|discriminate].
    destruct (forIn (setData employeeData) groups) as [ds|]; simpl; [|discriminate].
    intros [= <-]. simpl. rewrite andb_true_iff. intros [Hr Hds].
    rewrite Hr, (IH ds eq_refl Hds). reflexivity.
Qed.

(** X10.  A click ends with all documents produced exactly when a template
    is loaded, the libraries are loaded, the invited list is not empty, the
    pass over the groups completes and the template library accepts the data
    of every group; the documents are then those of the pass. *)
Theorem generateWord_generated (renders : DocData.t -> bool)
    (templateLoaded librariesLoaded : bool)
    (employeeData invitedList : list Employee) (docs : list DocData.t) :
  generateWord renders templateLoaded librariesLoaded employeeData invitedList
    = (docs, Generated) <->
  templateLoaded = true /\ librariesLoaded = true /\ invitedList <> [] /\
  generate employeeData invitedList = Ok docs /\ forallb renders docs = true.
Proof.
  unfold generateWord, generate. split.
  - destruct templateLoaded; simpl; [|discriminate].
    destruct invitedList as [|e l]; simpl length; cbn [Nat.eqb]; [discriminate|].
    destruct librariesLoaded; simpl negb; cbv iota; [|discriminate].
    destruct (groupedEmployees (e :: l)) as [groups|]; [|discriminate].
    destruct (produce renders employeeData groups) as [ds c] eqn:Hp.
    destruct c; [|discriminate]. intros [= ->].
    destruct (produce_prefix renders employeeData groups docs true Hp)
      as (H1 & H2 & H3 & _).
    rewrite (H3 eq_refl), firstn_all in H1. simpl.
    repeat split; try assumption. discriminate.
  - intros (-> & -> & Hne & Hg & Hr).
    destruct invitedList as [|e l]; [congruence|]. simpl length. cbn [Nat.eqb negb].
    destruct (groupedEmployees (e :: l)) as [groups|]; simpl in Hg; [|discriminate].
    rewrite (produce_all renders employeeData groups docs Hg Hr). reflexivity.
Qed.

(** X11.  When a click ends in the [catch] branch although the grouping
    completed, the documents produced are those of the groups before the
    failing one, in order: the first group whose data could not be built or
    was refused by the template library stops the loop, and no later group
    gets a document. *)
Theorem generateWord_aborted (renders : DocData.t -> bool)
    (templateLoaded librariesLoaded : bool)
    (employeeData invitedList : list Employee)
    (groups : list (jsstring * Group.t)) (docs : list DocData.t) :
  generateWord renders templateLoaded librariesLoaded employeeData invitedList
    = (docs, Aborted) ->
  groupedEmployees invitedList = Ok groups ->
  forIn (setData employeeData) (firstn (length docs) groups) = Ok docs /\
  forallb renders docs = true /\
  exists k g, nth_error groups (length docs) = Some (k, g) /\
    match setData employeeData g with
    | Ok d => renders d = false
    | TypeError => True
    end.
Proof.
  unfold generateWord. intros H Hg.
  destruct templateLoaded; simpl in H; [|discriminate].
  destruct (length invitedList =? 0); [discriminate|].
  destruct librariesLoaded; simpl in H; [|discriminate].
  rewrite Hg in H.
  destruct (produce renders employeeData groups) as [ds c] eqn:Hp.
  destruct c; [discriminate|]. injection H as ->.
  destruct (produce_prefix renders employeeData groups docs false Hp)
    as (H1 & H2 & _ & H4).
  split; [exact H1|]. split; [exact H2 | exact (H4 eq_refl)].
Qed.

Lemma generateWord_aborted_witness :
  let ahmed := employeeNamed 1 "Ahmed" MALE "قاضي" in
  let omar := {| employeeId := IdNumber 2;
                 fullName := Some (utf16 "Omar");
                 gender := Some MALE;
                 jobTitle := Some (utf16 "toString");
                 postResponsibility := None;
                 workLocation := Some (utf16 "Tribunal");
                 division := Some (utf16 "Penal");
                 city := Some (utf16 "Rabat") |} in
  exists docs groups,
    generateWord (fun _ => true) true true sampleRoster [ahmed; omar] = (docs, Aborted) /\
    groupedEmployees [ahmed; omar] = Ok groups /\
    length docs = 1 /\ length groups = 2 /\
    forIn (setData sampleRoster) (firstn (length docs) groups) = Ok docs.
Proof.
  intros ahmed omar.
  assert (H : exists docs groups,
    generateWord (fun _ => true) true true sampleRoster [ahmed; omar] = (docs, Aborted) /\
    groupedEmployees [ahmed; omar] = Ok groups /\ length docs = 1 /\ length groups = 2).
  { eexists; eexists; repeat split; vm_compute; reflexivity. }
  destruct H as (docs & groups & Hw & Hg & Hl & Hl').
  exists docs, groups. repeat split; try assumption.
  exact (proj1 (generateWord_aborted _ _ _ _ _ groups docs Hw Hg)).
Defined.

(* ================================================================== *)
(** ** The invited list *)

Section InvitedList.
Variable rt : Runtime.
Variable employeeData : list Employee.

Lemma sameParsedId_sym (a b : idValue) : sameParsedId rt a b = sameParsedId rt b a.
Proof.
  unfold sameParsedId. destruct (parseInt rt a), (parseInt rt b); try reflexivity.
  apply Z.eqb_sym.
Qed.

Lemma sameParsedId_parses (a b : idValue) :
  sameParsedId rt a b = true -> parseInt rt a <> None /\ parseInt rt b <> None.
Proof.
  unfold sameParsedId. destruct (parseInt rt a), (parseInt rt b);
    try discriminate. intros _; split; discriminate.
Qed.

(** Identifiers that parse to the same number are interchangeable. *)
Lemma sameParsedId_subst (a b c : idValue) :
  sameParsedId rt a b = true -> sameParsedId rt c a = sameParsedId rt c b.
Proof.
  unfold sameParsedId.
  destruct (parseInt rt a) as [x|], (parseInt rt b) as [y|]; try discriminate.
  intros H. apply Z.eqb_eq in H. subst y. reflexivity.
Qed.

Lemma sameParsedId_nan (a b : idValue) :
  parseInt rt b = None -> sameParsedId rt a b = false.
Proof.
  unfold sameParsedId. intros ->. destruct (parseInt rt a); reflexivity.
Qed.

Lemma rosterRecord_some (id : idValue) (e : Employee) :
  rosterRecord rt employeeData id = Some e ->
  In e employeeData /\ sameParsedId rt (employeeId e) id = true.
Proof. intros H. apply find_some in H. exact H. Qed.

Lemma rosterRecord_subst (a b : idValue) :
  sameParsedId rt a b = true ->
  rosterRecord rt employeeData a = rosterRecord rt employeeData b.
Proof.
  intros H. unfold rosterRecord.
  induction employeeData as [|x l IH]; [reflexivity|]. simpl.
  rewrite (sameParsedId_subst a b (employeeId x) H), IH. reflexivity.
Qed.

Lemma invited_subst (a b : idValue) (l : list Employee) :
  sameParsedId rt a b = true ->
  existsb (fun emp => sameParsedId rt (employeeId emp) a) l =
  existsb (fun emp => sameParsedId rt (employeeId emp) b) l.
Proof.
  intros H. induction l as [|x l IH]; [reflexivity|]. simpl.
  rewrite (sameParsedId_subst a b (employeeId x) H), IH. reflexivity.
Qed.

(** The three ways [addToInvitedList] can go. *)
Lemma addToInvitedList_cases (l : list Employee) (id : idValue) :
  (rosterRecord rt employeeData id = None /\
   addToInvitedList rt employeeData l id = (l, NotFound)) \/
  (exists e, rosterRecord rt employeeData id = Some e /\
     existsb (fun emp => sameParsedId rt (employeeId emp) id) l = true /\
     addToInvitedList rt employeeData l id = (l, AlreadyInvited)) \/
  (exists e, rosterRecord rt employeeData id = Some e /\
     existsb (fun emp => sameParsedId rt (employeeId emp) id) l = false /\
     addToInvitedList rt employeeData l id = (l ++ [e], Added)).
Proof.
  unfold addToInvitedList, rosterRecord.
  destruct (find _ employeeData) as [e|]; [|left; split; reflexivity].
  right. destruct (existsb _ l) eqn:E; simpl.
  - left. exists e. repeat split.
  - right. exists e. repeat split.
Qed.

Lemma not_invited (l : list Employee) (id : idValue) :
  existsb (fun emp => sameParsedId rt (employeeId emp) id) l = false ->
  forall x, In x l -> sameParsedId rt (employeeId x) id = false.
Proof.
  intros H x Hx. destruct (sameParsedId rt (employeeId x) id) eqn:E; [|reflexivity].
  assert (existsb (fun emp => sameParsedId rt (employeeId emp) id) l = true)
    by (apply existsb_exists; exists x; split; assumption).
  congruence.
Qed.

Lemma distinctIds_snoc (l : list Employee) (e : Employee) :
  distinctIds rt l ->
  (forall x, In x l -> sameParsedId rt (employeeId x) (employeeId e) = false) ->
  distinctIds rt (l ++ [e]).
Proof.
  induction l as [|a l IH]; simpl; intros Hd He.
  - split; [intros x [] | exact I].
  - destruct Hd as [Ha Hd]. split.
    + intros x Hx. apply in_app_or in Hx. destruct Hx as [Hx | [<- | []]].
      * exact (Ha x Hx).
      * apply He. left; reflexivity.
    + apply IH; [exact Hd | intros x Hx; apply He; right; exact Hx].
Qed.

Lemma distinctIds_filter (p : Employee -> bool) (l : list Employee) :
  distinctIds rt l -> distinctIds rt (filter p l).
Proof.
  induction l as [|a l IH]; simpl; [tauto|]. intros [Ha Hd].
  destruct (p a); simpl; [|exact (IH Hd)].
  split; [|exact (IH Hd)].
  intros x Hx. apply filter_In in Hx. exact (Ha x (proj1 Hx)).
Qed.

Lemma wellFormed_add (l : list Employee) (id : idValue) :
  wellFormed rt employeeData l -> wellFormed rt employeeData (fst (addToInvitedList rt employeeData l id)).
Proof.
  intros (Hd & Hr & Hp).
  destruct (addToInvitedList_cases l id)
    as [[_ ->] | [(e & _ & _ & ->) | (e & He & Hn & ->)]]; simpl;
    try (repeat split; assumption).
  apply rosterRecord_some in He. destruct He as [Hin Hsame].
  repeat split.
  - apply distinctIds_snoc; [exact Hd|]. intros x Hx.
    rewrite (sameParsedId_subst (employeeId e) id (employeeId x) Hsame).
    exact (not_invited l id Hn x Hx).
  - intros x Hx. apply in_app_or in Hx. destruct Hx as [Hx | [<- | []]]; auto.
  - intros x Hx. apply in_app_or in Hx. destruct Hx as [Hx | [<- | []]]; auto.
    exact (proj1 (sameParsedId_parses _ _ Hsame)).
Qed.

Lemma wellFormed_filter (p : Employee -> bool) (l : list Employee) :
  wellFormed rt employeeData l -> wellFormed rt employeeData (filter p l).
Proof.
  intros (Hd & Hr & Hp). repeat split.
  - apply distinctIds_filter, Hd.
  - intros e He. apply filter_In in He. exact (Hr e (proj1 He)).
  - intros e He. apply filter_In in He. exact (Hp e (proj1 He)).
Qed.

Lemma wellFormed_nil : wellFormed rt employeeData [].
Proof. repeat split; intros e []. Qed.

(** A row of the import does what a click on a search result does, unless
    its first cell is falsy. *)
Lemma importRow_add (acc : list Employee) (row : list idValue) :
  importRow rt employeeData acc row =
    if truthyId (hd IdUndefined row)
    then fst (addToInvitedList rt employeeData acc (hd IdUndefined row))
    else acc.
Proof.
  unfold importRow, addToInvitedList.
  destruct (truthyId (hd IdUndefined row)); [|reflexivity].
  destruct (find _ employeeData); [|reflexivity].
  destruct (existsb _ acc); reflexivity.
Qed.

Lemma wellFormed_import (rows : list (list idValue)) :
  forall acc, wellFormed rt employeeData acc ->
    wellFormed rt employeeData (fold_left (importRow rt employeeData) rows acc).
Proof.
  induction rows as [|row rows IH]; intros acc H; simpl; [exact H|].
  apply IH. rewrite importRow_add.
  destruct (truthyId (hd IdUndefined row)); [apply wellFormed_add|]; exact H.
Qed.

Lemma wellFormed_perform (l : list Employee) (a : action) :
  wellFormed rt employeeData l -> wellFormed rt employeeData (perform rt employeeData l a).
Proof.
  intros H. destruct a as [id | id | confirmed | rows confirmed]; simpl.
  - apply wellFormed_add, H.
  - apply wellFormed_filter, H.
  - unfold clearAll. destruct (_ && _); [apply wellFormed_nil | exact H].
  - unfold excelImport, employeesToAdd.
    destruct (0 <? _); [|exact H].
    destruct confirmed; [|exact H].
    apply wellFormed_import, wellFormed_nil.
Qed.

End InvitedList.

(** X12.  With the roster unchanged, every sequence of additions, removals,
    clearings and imports keeps the invited list free of duplicates and
    inside the roster: if no two entries have identifiers that [parseInt]
    reads as the same number, every entry is a roster record and every
    identifier parses, the same holds after the actions. *)
Theorem invited_list_invariant (rt : Runtime) (employeeData invitedList : list Employee)
    (actions : list action) :
  distinctIds rt invitedList ->
  (forall e, In e invitedList -> In e employeeData) ->
  (forall e, In e invitedList -> parseInt rt (employeeId e) <> None) ->
  let after := fold_left (perform rt employeeData) actions invitedList in
  distinctIds rt after /\
  (forall e, In e after -> In e employeeData) /\
  (forall e, In e after -> parseInt rt (employeeId e) <> None).
Proof.
  intros Hd Hr Hp.
  assert (H : wellFormed rt employeeData invitedList) by (repeat split; assumption).
  clear Hd Hr Hp. revert invitedList H.
  induction actions as [|a actions IH]; intros l H; simpl; [exact H|].
  apply IH, wellFormed_perform, H.
Qed.

Lemma invited_list_invariant_witness :
  let actions := [Add (IdNumber 2); Add (IdString (utf16 "2")); Add (IdNumber 9);
                  Remove (IdString (utf16 " 2kg")); Import [[IdNumber 1]; []; [IdNumber 1]] true;
                  Add (IdNumber 9)] in
  let after := fold_left (perform sampleRuntime sampleRoster) actions [] in
  map employeeId after = [IdNumber 1; IdNumber 9] /\
  distinctIds sampleRuntime after /\
  (forall e, In e after -> In e sampleRoster).
Proof.
  intros actions after. split; [vm_compute; reflexivity|].
  destruct (invited_list_invariant sampleRuntime sampleRoster [] actions)
    as (Hd & Hr & _); [exact I | intros e [] | intros e [] |].
  split; assumption.
Defined.

Lemma filter_all {A : Type} (p : A -> bool) (l : list A) :
  (forall x, In x l -> p x = true) -> filter p l = l.
Proof.
  induction l as [|a l IH]; intros H; simpl; [reflexivity|].
  rewrite (H a (or_introl eq_refl)), IH; [reflexivity|].
  intros x Hx; apply H; right; exact Hx.
Qed.

(** X13.  Adding the same identifier twice is the same as adding it once:
    the second call never pushes and leaves the list as the first call left
    it. *)
Theorem addToInvitedList_twice (rt : Runtime) (employeeData invitedList : list Employee)
    (id : idValue) :
  let once := fst (addToInvitedList rt employeeData invitedList id) in
  fst (addToInvitedList rt employeeData once id) = once /\
  snd (addToInvitedList rt employeeData once id) <> Added.
Proof.
  intros once. unfold once.
  destruct (addToInvitedList_cases rt employeeData invitedList id)
    as [[Hn H] | [(e & He & Hin & H) | (e & He & Hn & H)]]; rewrite H; simpl.
  - rewrite H; simpl. split; [reflexivity | discriminate].
  - rewrite H; simpl. split; [reflexivity | discriminate].
  - destruct (addToInvitedList_cases rt employeeData (invitedList ++ [e]) id)
      as [[_ ->] | [(e' & _ & _ & ->) | (e' & _ & Hn' & _)]]; simpl;
      try (split; [reflexivity | discriminate]).
    apply rosterRecord_some in He. destruct He as [_ Hsame].
    rewrite existsb_app in Hn'. simpl in Hn'. rewrite Hsame in Hn'.
    rewrite orb_true_r in Hn'. discriminate.
Qed.

(** X14.  Removing an identifier after adding it gives what removing it
    from the original list gives; when the list had no entry with that
    identifier, add followed by remove restores the list. *)
Theorem removeFromInvitedList_after_add (rt : Runtime)
    (employeeData invitedList : list Employee) (id : idValue) :
  let added := fst (addToInvitedList rt employeeData invitedList id) in
  removeFromInvitedList rt added id = removeFromInvitedList rt invitedList id /\
  (existsb (fun emp => sameParsedId rt (employeeId emp) id) invitedList = false ->
   removeFromInvitedList rt added id = invitedList).
Proof.
  intros added.
  assert (H1 : removeFromInvitedList rt added id = removeFromInvitedList rt invitedList id).
  { unfold added.
    destruct (addToInvitedList_cases rt employeeData invitedList id)
      as [[_ ->] | [(e & _ & _ & ->) | (e & He & _ & ->)]]; simpl; try reflexivity.
    apply rosterRecord_some in He. destruct He as [_ Hsame].
    unfold removeFromInvitedList. rewrite filter_app. simpl.
    rewrite Hsame. simpl. apply app_nil_r. }
  split; [exact H1|]. intros Hn. rewrite H1.
  unfold removeFromInvitedList. apply filter_all.
  intros x Hx. rewrite (not_invited rt invitedList id Hn x Hx). reflexivity.
Qed.

(** X15.  Entries are identified by the number that [parseInt] reads, not
    by the written form of the identifier: two arguments that parse to the
    same number add and remove the same records.  An argument that does not
    parse removes nothing, and an entry whose own identifier does not parse
    survives every removal. *)
Theorem invited_list_by_parsed_number (rt : Runtime)
    (employeeData invitedList : list Employee) :
  (forall a b, sameParsedId rt a b = true ->
     addToInvitedList rt employeeData invitedList a =
       addToInvitedList rt employeeData invitedList b /\
     removeFromInvitedList rt invitedList a = removeFromInvitedList rt invitedList b) /\
  (forall a, parseInt rt a = None ->
     removeFromInvitedList rt invitedList a = invitedList) /\
  (forall a e, In e invitedList -> parseInt rt (employeeId e) = None ->
     In e (removeFromInvitedList rt invitedList a)).
Proof.
  split; [|split].
  - intros a b H. split.
    + unfold addToInvitedList.
      change (find (fun emp => sameParsedId rt (employeeId emp) a) employeeData)
        with (rosterRecord rt employeeData a).
      change (find (fun emp => sameParsedId rt (employeeId emp) b) employeeData)
        with (rosterRecord rt employeeData b).
      rewrite (rosterRecord_subst rt employeeData a b H),
              (invited_subst rt a b invitedList H). reflexivity.
    + unfold removeFromInvitedList. apply filter_ext.
      intros x. rewrite (sameParsedId_subst rt a b (employeeId x) H). reflexivity.
  - intros a Ha. unfold removeFromInvitedList. apply filter_all.
    intros x _. rewrite (sameParsedId_nan rt (employeeId x) a Ha). reflexivity.
  - intros a e Hin He. unfold removeFromInvitedList. apply filter_In.
    split; [exact Hin|].
    rewrite sameParsedId_sym, (sameParsedId_nan rt a (employeeId e) He). reflexivity.
Qed.

Lemma employeesToAdd_members (rt : Runtime) (employeeData : list Employee)
    (rows : list (list idValue)) :
  forall acc,
    (forall p, In p acc -> exists id, rosterRecord rt employeeData id = Some p) ->
    forall e, In e (fold_left (importRow rt employeeData) rows acc) <->
      In e acc \/
      exists row, In row rows /\ truthyId (hd IdUndefined row) = true /\
                  rosterRecord rt employeeData (hd IdUndefined row) = Some e.
Proof.
  induction rows as [|row rows IH]; intros acc Hacc e; simpl.
  - split; [intros H; left; exact H | intros [H | (row & [] & _)]; exact H].
  - set (id := hd IdUndefined row).
    assert (Hstep : forall x, In x (importRow rt employeeData acc row) <->
              In x acc \/ (truthyId id = true /\ rosterRecord rt employeeData id = Some x)).
    { intros x. rewrite importRow_add. fold id.
      destruct (truthyId id) eqn:Ht; [|split; [tauto | intros [H | [H _]]; [exact H | discriminate]]].
      destruct (addToInvitedList_cases rt employeeData acc id)
        as [[Hn ->] | [(e' & He' & Hin & ->) | (e' & He' & _ & ->)]]; simpl.
      - rewrite Hn. split; [tauto | intros [H | [_ H]]; [exact H | discriminate]].
      - rewrite He'. split; [tauto|]. intros [H | [_ [= <-]]]; [exact H|].
        apply existsb_exists in Hin. destruct Hin as (p & Hp & Hsame).
        destruct (Hacc p Hp) as (id' & Hid').
        pose proof (rosterRecord_some rt employeeData id' p Hid') as [_ Hp'].
        assert (Hids : sameParsedId rt id' id = true).
        { rewrite (sameParsedId_sym rt id' id).
          rewrite <- (sameParsedId_subst rt (employeeId p) id' id Hp').
          rewrite sameParsedId_sym. exact Hsame. }
        rewrite (rosterRecord_subst rt employeeData id' id Hids) in Hid'.
        congruence.
      - rewrite He', in_app_iff. simpl. split.
        + intros [H | [<- | []]]; [left; exact H | right; split; reflexivity].
        + intros [H | [_ [= <-]]]; [left; exact H | right; left; reflexivity]. }
    rewrite IH.
    + rewrite Hstep. split.
      * intros [[H | [Ht Hr]] | (row' & Hin & Ht & Hr)].
        -- left; exact H.
        -- right. exists row. split; [left; reflexivity | split; assumption].
        -- right. exists row'. split; [right; exact Hin | split; assumption].
      * intros [H | (row' & [<- | Hin] & Ht & Hr)].
        -- left; left; exact H.
        -- left; right; split; assumption.
        -- right. exists row'. split; [exact Hin | split; assumption].
    + intros p Hp. apply Hstep in Hp. destruct Hp as [Hp | [_ Hp]].
      * exact (Hacc p Hp).
      * exists id; exact Hp.
Qed.

(** X16.  The list built by an import holds exactly the roster records
    found for the rows whose first cell is truthy (an empty cell, [0] and
    [''] are skipped), each being the first roster record that [parseInt]
    identifies with the cell; no two of them have the same parsed
    identifier.  The import replaces the invited list by this list only when
    it is not empty and the user confirms; otherwise the invited list stays
    as it was. *)
Theorem excelImport_result (rt : Runtime) (employeeData invitedList : list Employee)
    (rows : list (list idValue)) (confirmed : bool) :
  let toAdd := employeesToAdd rt employeeData rows in
  (forall e, In e toAdd <->
     exists row, In row rows /\ truthyId (hd IdUndefined row) = true /\
                 rosterRecord rt employeeData (hd IdUndefined row) = Some e) /\
  distinctIds rt toAdd /\
  excelImport rt employeeData invitedList rows confirmed =
    match toAdd with
    | _ :: _ => if confirmed then toAdd else invitedList
    | [] => invitedList
    end.
Proof.
  intros toAdd. split; [|split].
  - intros e. unfold toAdd, employeesToAdd.
    rewrite (employeesToAdd_members rt employeeData rows []); [|intros p []].
    simpl. tauto.
  - unfold toAdd, employeesToAdd.
    exact (proj1 (wellFormed_import rt employeeData rows [] (wellFormed_nil rt employeeData))).
  - unfold excelImport. fold toAdd. destruct toAdd; reflexivity.
Qed.

(* ================================================================== *)
(** ** Search *)

(** The keyword test that [performSearch] writes out is [isResponsible]. *)
Lemma responsibleMatch_isResponsible (e : Employee) :
  let pr := trim (orElse (postResponsibility e) []) in
  includes kw_rais pr || includes kw_raisa pr
  || includes kw_wakil pr || includes kw_wakila pr = isResponsible e.
Proof.
  unfold isResponsible. destruct (postResponsibility e) as [[|c s]|]; reflexivity.
Qed.

(** X17.  When the city field holds more than white space, the search lists
    responsible persons only: a roster record is displayed exactly when
    [isResponsible] accepts it, its lower-cased city contains the city term
    and, if a search term is given, its lower-cased name or the text of its
    identifier contains the search term. *)
Theorem performSearch_by_city (rt : Runtime) (employeeData : list Employee)
    (searchValue cityValue : jsstring) (e : Employee) :
  let searchTerm := trim (toLowerCase rt searchValue) in
  let cityTerm := trim (toLowerCase rt cityValue) in
  cityTerm <> [] ->
  (In e (performSearch rt employeeData searchValue cityValue) <->
   In e employeeData /\
   isResponsible e = true /\
   includes cityTerm (toLowerCase rt (orElse (city e) [])) = true /\
   (searchTerm = [] \/
    includes searchTerm (toLowerCase rt (orElse (fullName e) [])) = true \/
    includes searchTerm
      (if truthyId (employeeId e) then idText rt (employeeId e) else []) = true)).
Proof.
  intros searchTerm cityTerm Hcity. unfold performSearch.
  fold searchTerm cityTerm.
  destruct cityTerm as [|c ct] eqn:Ec; [congruence|].
  replace ((length searchTerm =? 0) && (length (c :: ct) =? 0)) with false
    by (simpl; rewrite andb_false_r; reflexivity).
  rewrite filter_In, !andb_true_iff.
  rewrite (responsibleMatch_isResponsible e).
  destruct searchTerm as [|s st].
  - split; [intros (H & (_ & H1) & H2) | intros (H & H1 & H2 & _)].
    + repeat split; try assumption. left; reflexivity.
    + repeat split; assumption.
  - rewrite orb_true_iff. split.
    + intros (H & (H0 & H1) & H2). repeat split; try assumption. right; exact H0.
    + intros (H & H1 & H2 & [H3 | H3]); [discriminate|]. repeat split; assumption.
Qed.

Lemma performSearch_by_city_witness :
  In presidentOfTribunal (performSearch sampleRuntime sampleRoster (utf16 "") (utf16 " RAB ")) /\
  ~ In (employeeNamed 1 "Ahmed" MALE "قاضي")
       (performSearch sampleRuntime sampleRoster (utf16 "") (utf16 " RAB ")).
Proof.
  assert (Hc : trim (toLowerCase sampleRuntime (utf16 " RAB ")) <> [])
    by (vm_compute; discriminate).
  split.
  - apply (performSearch_by_city sampleRuntime sampleRoster (utf16 "") (utf16 " RAB ")
             presidentOfTribunal Hc).
    repeat split; try (vm_compute; reflexivity).
    + right; right; left; reflexivity.
    + left; vm_compute; reflexivity.
  - intros H.
    apply (performSearch_by_city sampleRuntime sampleRoster (utf16 "") (utf16 " RAB ")
             (employeeNamed 1 "Ahmed" MALE "قاضي") Hc) in H.
    destruct H as (_ & H & _). vm_compute in H. discriminate.
Defined.

(* ================================================================== *)
(** ** More on the normalizer and the resolver *)

Lemma findMasculineRoot_fixed (title : jsstring) :
  truthy (getProp jobTitleGrammar title) = true -> findMasculineRoot title = title.
Proof.
  destruct title as [|c t]; [reflexivity|].
  intros H. unfold findMasculineRoot. rewrite H. reflexivity.
Qed.

Lemma entry_truthy (key : jsstring) (g : Grammar.entry) :
  In (key, g) jobTitleGrammar -> truthy (getProp jobTitleGrammar key) = true.
Proof.
  unfold jobTitleGrammar at 1. simpl. intros H.
  repeat (destruct H as [H | H]; [injection H as <- _; vm_compute; reflexivity|]).
  contradiction.
Qed.

(** The normalizer returns its argument or a name that the dictionary
    object has. *)
Lemma findMasculineRoot_cases (title : jsstring) :
  findMasculineRoot title = title \/
  truthy (getProp jobTitleGrammar (findMasculineRoot title)) = true.
Proof.
  destruct title as [|c t]; [left; reflexivity|].
  unfold findMasculineRoot.
  destruct (truthy (getProp jobTitleGrammar (c :: t))) eqn:Ht; [left; reflexivity|].
  destruct (find (isFeminineFormOf (c :: t)) jobTitleGrammar) as [[key g]|] eqn:Ef.
  - right. apply find_some in Ef. exact (entry_truthy key g (proj1 Ef)).
  - destruct (endsWith feminineMarker (firstToken (c :: t))); [|left; reflexivity].
    set (m := replace (c :: t) (firstToken (c :: t)) (dropLast (firstToken (c :: t)))).
    destruct (truthy (getProp jobTitleGrammar m)) eqn:Hm; [right; exact Hm | left; reflexivity].
Qed.

(** X18.  Normalizing is idempotent: on every title, the root that
    [findMasculineRoot] returns is returned unchanged when it is normalized
    again. *)
Theorem findMasculineRoot_idempotent (title : jsstring) :
  findMasculineRoot (findMasculineRoot title) = findMasculineRoot title.
Proof.
  destruct (findMasculineRoot_cases title) as [H | H].
  - rewrite H. exact H.
  - apply findMasculineRoot_fixed, H.
Qed.

Lemma malesOf_nil_iff (l : list Employee) :
  malesOf l = [] <-> forall e, In e l -> ~ isMale e.
Proof.
  split.
  - intros H e Hin Hm.
    assert (Hex : Exists isMale l) by (apply Exists_exists; exists e; split; assumption).
    apply malesOf_Exists in Hex. rewrite H in Hex. simpl in Hex. lia.
  - intros H. apply malesOf_none. intros Hex. apply Exists_exists in Hex.
    destruct Hex as (e & Hin & Hm). exact (H e Hin Hm).
Qed.

Lemma femalesOf_nil_iff (l : list Employee) :
  femalesOf l = [] <-> forall e, In e l -> ~ isFemale e.
Proof.
  unfold femalesOf. induction l as [|a l IH]; simpl.
  - split; [intros _ e [] | reflexivity].
  - destruct (opt_eqb (gender a) (Some FEMALE)) eqn:E.
    + split; [discriminate|]. intros H. exfalso.
      apply (H a (or_introl eq_refl)). apply opt_eqb_eq. exact E.
    + rewrite IH. split.
      * intros H e [<- | Hin]; [|exact (H e Hin)].
        intros Hf. apply opt_eqb_eq in Hf. congruence.
      * intros H e Hin. apply H. right; exact Hin.
Qed.

(** X19.  The collective title of a returned record is empty exactly when
    no member of the group has the male or the female sentinel as gender;
    with one such member it starts with the preposition. *)
Theorem collective_title_empty_iff (employees : list Employee) (r : GroupData.t) :
  processGroupData employees = Ok r ->
  (GroupData.collective_title r = [] <->
   forall e, In e employees -> ~ isMale e /\ ~ isFemale e) /\
  (GroupData.collective_title r <> [] ->
   exists rest, GroupData.collective_title r = preposition ++ rest).
Proof.
  intros H. destruct (processGroupData_segments employees r H) as (Hm & Hf & Hc).
  rewrite Hc, Hm, Hf.
  pose proof (malesOf_nil_iff employees) as HM.
  pose proof (femalesOf_nil_iff employees) as HF.
  destruct (malesOf employees) as [|m ms]; destruct (femalesOf employees) as [|f fs].
  - split.
    + split; [intros _ e Hin | reflexivity].
      split; [exact (proj1 HM eq_refl e Hin) | exact (proj1 HF eq_refl e Hin)].
    + intros Hne. exfalso; apply Hne; reflexivity.
  - split.
    + split; [discriminate|]. intros Hall.
      assert (Hn : f :: fs = []) by (apply HF; intros e Hin; exact (proj2 (Hall e Hin))).
      discriminate.
    + intros _. eexists. simpl. reflexivity.
  - split.
    + split; [discriminate|]. intros Hall.
      assert (Hn : m :: ms = []) by (apply HM; intros e Hin; exact (proj1 (Hall e Hin))).
      discriminate.
    + intros _. eexists. simpl. reflexivity.
  - split.
    + split; [discriminate|]. intros Hall.
      assert (Hn : m :: ms = []) by (apply HM; intros e Hin; exact (proj1 (Hall e Hin))).
      discriminate.
    + intros _. eexists. simpl. reflexivity.
Qed.

Lemma collective_title_empty_iff_witness :
  exists r, processGroupData [employeeWithoutGender; employeeWithoutIdAndGender] = Ok r /\
            GroupData.collective_title r = [].
Proof.
  assert (H : exists r,
    processGroupData [employeeWithoutGender; employeeWithoutIdAndGender] = Ok r)
    by (eexists; vm_compute; reflexivity).
  destruct H as [r Hr]. exists r. split; [exact Hr|].
  apply (proj1 (collective_title_empty_iff _ r Hr)).
  intros e [<- | [<- | []]]; split; discriminate.
Defined.
